(** * MinioClientWrapper: credential resolution and storage facade

    A shallow embedding of [client.py].  The wrapper owns no protocol of
    its own: it resolves a credential triple from three sources (explicit
    arguments, a Kubernetes secret, an Azure Key Vault secret) and then
    delegates every storage operation to a [Minio] client.

    The collaborators (kubernetes, azure, minio, and the [base64] / [json]
    functions of Python's library) are outside the file, so they enter the
    model as a record of oracles over an abstract state of the outside
    world.  Every call that crosses the boundary is written to a log; the
    statements about "which API was consulted" or "how many calls were
    made" are statements about that log. *)

From stdpp Require Import gmap strings list.
From Stdlib Require Import ZArith Strings.Byte.

#[local] Set Warnings "-register-all".
#[local] Open Scope string_scope.
#[local] Open Scope list_scope.

(** ** Python values *)

(** A float as [json.loads] can produce it; only its truth value matters. *)
Inductive pyfloat :=
| FZero (negative : bool)
| FFinite (negative : bool) (mantissa : positive) (exponent : Z)
| FInf (negative : bool)
| FNaN.

(** The values that flow through the credential variables: [None], the
    strings given by the caller, and whatever [json.loads] returns. *)
Inductive pyval :=
| PNone
| PBool (b : bool)
| PInt (z : Z)
| PFloat (f : pyfloat)
| PStr (s : string)
| PList (l : list pyval)
| PDict (d : gmap string pyval).

(** Python's truth value testing, as [not x] and [x and y] use it. *)
Definition truthy (v : pyval) : bool :=
  match v with
  | PNone => false
  | PBool b => b
  | PInt z => negb (Z.eqb z 0)
  | PFloat (FZero _) => false
  | PFloat _ => true
  | PStr s => negb (String.eqb s "")
  | PList l => match l with [] => false | _ :: _ => true end
  | PDict d => negb (Nat.eqb (size d) 0)
  end.

(** A keyword argument of [__init__] that is a [str] or left at [None]. *)
Definition of_arg (a : option string) : pyval :=
  match a with
  | None => PNone
  | Some s => PStr s
  end.

(** [f"{a}"] for such an argument. *)
Definition py_format (a : option string) : string :=
  match a with
  | None => "None"
  | Some s => s
  end.

(** ** Exceptions *)

Inductive exn_class :=
| ValueError | TypeError | KeyError | AttributeError
| UnicodeDecodeError | JSONDecodeError | BinasciiError
| ConfigException | ApiException
| ClientAuthenticationError | ResourceNotFoundError
| S3Error | OSError
| OtherException (name : string)
| KeyboardInterrupt | SystemExit | GeneratorExit.

(** [isinstance(e, Exception)]: in Python's hierarchy [KeyboardInterrupt],
    [SystemExit] and [GeneratorExit] derive from [BaseException] directly,
    everything else above derives from [Exception]. *)
Definition is_Exception_class (c : exn_class) : bool :=
  match c with
  | KeyboardInterrupt | SystemExit | GeneratorExit => false
  | _ => true
  end.

Record exn := Exc { exn_cls : exn_class; exn_msg : string }.

Definition is_Exception (e : exn) : bool := is_Exception_class (exn_cls e).

Inductive result (A : Type) :=
| Ok (a : A)
| Raised (e : exn).
Arguments Ok {A} a.
Arguments Raised {A} e.

(** ** Objects handed over by the collaborators *)

(** [V1Secret]: [data] is a dict from key to base64 text, or [None]. *)
Record V1Secret := { data : option (gmap string string) }.

(** [KeyVaultSecret]: [value] is the secret's text, or [None]. *)
Record KeyVaultSecret := { value : option string }.

(** A configured [Minio] client: the arguments it was built from. *)
Record Minio := {
  m_endpoint : pyval;
  m_access_key : pyval;
  m_secret_key : pyval;
  m_secure : bool;
  m_cert_check : bool
}.

(** An entry yielded by [Minio.list_objects]. *)
Record Object := { object_name : string; is_dir : bool; obj_size : Z }.

(** What [Minio.list_objects] returns is a generator: it yields some
    entries and then either stops or raises. *)
Record generator (A : Type) := { yields : list A; stops_with : option exn }.
Arguments yields {A} g.
Arguments stops_with {A} g.

(** ** Calls that leave the process *)

Inductive call :=
| CallLoadInclusterConfig
| CallCoreV1Api
| CallReadNamespacedSecret (name namespace : option string)
| CallDefaultAzureCredential
| CallSecretClient (vault_url : string)
| CallGetSecret (vault_url name : string)
| CallMinio (endpoint access_key secret_key : pyval) (secure cert_check : bool)
| CallBucketExists (bucket : string)
| CallMakeBucket (bucket : string)
| CallFputObject (bucket object file_path : string)
| CallFgetObject (bucket object file_path : string)
| CallListObjects (bucket : string) (prefix : option string)
| CallRemoveObject (bucket object : string)
| CallRemoveBucket (bucket : string).

Definition is_k8s_call (c : call) : bool :=
  match c with
  | CallLoadInclusterConfig | CallCoreV1Api | CallReadNamespacedSecret _ _ => true
  | _ => false
  end.

Definition is_keyvault_call (c : call) : bool :=
  match c with
  | CallDefaultAzureCredential | CallSecretClient _ | CallGetSecret _ _ => true
  | _ => false
  end.

Definition is_minio_constructor (c : call) : bool :=
  match c with
  | CallMinio _ _ _ _ _ => true
  | _ => false
  end.

Definition is_make_bucket (bucket : string) (c : call) : bool :=
  match c with
  | CallMakeBucket b => String.eqb b bucket
  | _ => false
  end.

(** The number of [make_bucket] calls on [bucket] in a log. *)
Definition creation_calls (bucket : string) (log : list call) : nat :=
  length (List.filter (is_make_bucket bucket) log).

(** ** The outside world *)

(** Each oracle answers one kind of call from the current state of the
    outside world [S] and leaves a new state.  [b64decode], [decode_utf8]
    and [json_loads] are functions of Python's library: they are pure. *)
Record World (S : Type) := {
  load_incluster_config : S -> result unit * S;
  CoreV1Api : S -> result unit * S;
  read_namespaced_secret : option string -> option string -> S -> result V1Secret * S;
  DefaultAzureCredential : S -> result unit * S;
  SecretClient : string -> S -> result unit * S;
  get_secret : string -> string -> S -> result KeyVaultSecret * S;
  b64decode : string -> result (list byte);
  decode_utf8 : list byte -> result string;
  json_loads : string -> result pyval;
  minio_init : Minio -> S -> result unit * S;
  client_bucket_exists : Minio -> string -> S -> result bool * S;
  client_make_bucket : Minio -> string -> S -> result unit * S;
  client_fput_object : Minio -> string -> string -> string -> S -> result unit * S;
  client_fget_object : Minio -> string -> string -> string -> S -> result unit * S;
  client_list_objects : Minio -> string -> option string -> S -> result (generator Object) * S;
  client_remove_object : Minio -> string -> string -> S -> result unit * S;
  client_remove_bucket : Minio -> string -> S -> result unit * S
}.
Arguments load_incluster_config {S} _ _.
Arguments CoreV1Api {S} _ _.
Arguments read_namespaced_secret {S} _ _ _ _.
Arguments DefaultAzureCredential {S} _ _.
Arguments SecretClient {S} _ _ _.
Arguments get_secret {S} _ _ _ _.
Arguments b64decode {S} _ _.
Arguments decode_utf8 {S} _ _.
Arguments json_loads {S} _ _.
Arguments minio_init {S} _ _ _.
Arguments client_bucket_exists {S} _ _ _ _.
Arguments client_make_bucket {S} _ _ _ _.
Arguments client_fput_object {S} _ _ _ _ _ _.
Arguments client_fget_object {S} _ _ _ _ _ _.
Arguments client_list_objects {S} _ _ _ _ _.
Arguments client_remove_object {S} _ _ _ _ _.
Arguments client_remove_bucket {S} _ _ _ _.

(** ** Computations: state of the outside world, exceptions, call log *)

Record out (S A : Type) := Out { res : result A; world : S; calls : list call }.
Arguments Out {S A} res world calls.
Arguments res {S A} o.
Arguments world {S A} o.
Arguments calls {S A} o.

Definition M (S A : Type) : Type := S -> out S A.

Definition ret {S A} (a : A) : M S A := fun s => Out (Ok a) s [].

Definition raise {S A} (e : exn) : M S A := fun s => Out (Raised e) s [].

Definition bind {S A B} (m : M S A) (k : A -> M S B) : M S B :=
  fun s =>
    match m s with
    | Out (Ok a) s1 c1 =>
        match k a s1 with
        | Out r s2 c2 => Out r s2 (c1 ++ c2)
        end
    | Out (Raised e) s1 c1 => Out (Raised e) s1 c1
    end.

(** A call to a collaborator: logged, answered by the oracle. *)
Definition extern {S A} (c : call) (oracle : S -> result A * S) : M S A :=
  fun s => let (r, s1) := oracle s in Out r s1 [c].

(** A pure library call that may raise. *)
Definition lift {S A} (r : result A) : M S A := fun s => Out r s [].

(** [try: body / except Exception: handler]: the handler runs for an
    instance of [Exception]; anything else raised by the body passes. *)
Definition try_except_Exception {S A} (body handler : M S A) : M S A :=
  fun s =>
    match body s with
    | Out (Raised e) s1 c1 =>
        if is_Exception e
        then match handler s1 with
             | Out r s2 c2 => Out r s2 (c1 ++ c2)
             end
        else Out (Raised e) s1 c1
    | o => o
    end.

Declare Scope py_scope.
Delimit Scope py_scope with py.
Notation "x <- m ;; k" := (bind m (fun x => k))
  (at level 20, m at level 99, k at level 200, only parsing) : py_scope.
#[local] Open Scope py_scope.

(** ** Credential triples *)

Definition triple : Type := pyval * pyval * pyval.

Definition none3 : triple := (PNone, PNone, PNone).

(** [not endpoint or not access_key or not secret_key] *)
Definition incomplete (t : triple) : bool :=
  let '(endpoint, access_key, secret_key) := t in
  negb (truthy endpoint) || negb (truthy access_key) || negb (truthy secret_key).

Definition complete (t : triple) : bool := negb (incomplete t).

(** [d[key]] on [secret.data]. *)
Definition subscript (d : option (gmap string string)) (key : string) : result string :=
  match d with
  | None => Raised (Exc TypeError "'NoneType' object is not subscriptable")
  | Some m =>
      match m !! key with
      | Some v => Ok v
      | None => Raised (Exc KeyError key)
      end
  end.

(** [v.get(key)]: only a dict has the method; a missing key gives [None]. *)
Definition py_get (v : pyval) (key : string) : result pyval :=
  match v with
  | PDict d =>
      match d !! key with
      | Some x => Ok x
      | None => Ok PNone
      end
  | _ => Raised (Exc AttributeError "object has no attribute 'get'")
  end.

(** [return secret_data.get('host'), secret_data.get('id'), secret_data.get('secret')] *)
Definition credentials_of (secret_data : pyval) : result triple :=
  match py_get secret_data "host" with
  | Raised e => Raised e
  | Ok host =>
      match py_get secret_data "id" with
      | Raised e => Raised e
      | Ok id =>
          match py_get secret_data "secret" with
          | Raised e => Raised e
          | Ok secret => Ok (host, id, secret)
          end
      end
  end.

Definition config_error : exn :=
  Exc ValueError
    "MinIO credentials could not be found in provided arguments, Kubernetes secrets, or Azure Key Vault.".

Record MinioClientWrapper := { client : Minio }.

Section Wrapper.
Context {S : Type} (w : World S).

(** *** Lookups *)

(** The body of the [try] in [_get_k8s_secret]. *)
Definition _get_k8s_secret_try (secret_name namespace : option string) : M S triple :=
  _ <- extern CallLoadInclusterConfig (load_incluster_config w) ;;
  _ <- extern CallCoreV1Api (CoreV1Api w) ;;
  secret <- extern (CallReadNamespacedSecret secret_name namespace)
                   (read_namespaced_secret w secret_name namespace) ;;
  payload <- lift (subscript (data secret) "minio") ;;
  raw <- lift (b64decode w payload) ;;
  text <- lift (decode_utf8 w raw) ;;
  secret_data <- lift (json_loads w text) ;;
  lift (credentials_of secret_data).

Definition _get_k8s_secret (secret_name namespace : option string) : M S triple :=
  try_except_Exception (_get_k8s_secret_try secret_name namespace) (ret none3).

Definition vault_url_of (keyvault_name : option string) : string :=
  "https://" +:+ py_format keyvault_name +:+ ".vault.azure.net".

(** [json.loads(x)] where [x] may be [None]. *)
Definition json_loads_value (v : option string) : result pyval :=
  match v with
  | None => Raised (Exc TypeError "the JSON object must be str, bytes or bytearray, not NoneType")
  | Some text => json_loads w text
  end.

(** The body of the [try] in [_get_azure_keyvault_secret]. *)
Definition _get_azure_keyvault_secret_try (keyvault_name : option string) : M S triple :=
  _ <- extern CallDefaultAzureCredential (DefaultAzureCredential w) ;;
  let vault_url := vault_url_of keyvault_name in
  _ <- extern (CallSecretClient vault_url) (SecretClient w vault_url) ;;
  secret <- extern (CallGetSecret vault_url "minio-credentials")
                   (get_secret w vault_url "minio-credentials") ;;
  secret_data <- lift (json_loads_value (value secret)) ;;
  lift (credentials_of secret_data).

Definition _get_azure_keyvault_secret (keyvault_name : option string) : M S triple :=
  try_except_Exception (_get_azure_keyvault_secret_try keyvault_name) (ret none3).

(** *** Construction *)

(** [Minio(endpoint, access_key=..., secret_key=..., secure=..., cert_check=...)] *)
Definition Minio_new (t : triple) (secure cert_check : bool) : M S Minio :=
  let '(endpoint, access_key, secret_key) := t in
  let c := {| m_endpoint := endpoint; m_access_key := access_key;
              m_secret_key := secret_key; m_secure := secure;
              m_cert_check := cert_check |} in
  _ <- extern (CallMinio endpoint access_key secret_key secure cert_check) (minio_init w c) ;;
  ret c.

(** Lines 12-13: the cluster secret, when the arguments are incomplete. *)
Definition resolve_k8s (t : triple) (secret_name namespace : option string) : M S triple :=
  if incomplete t
  then if truthy (of_arg secret_name) && truthy (of_arg namespace)
       then _get_k8s_secret secret_name namespace
       else ret none3
  else ret t.

(** Lines 15-16: the key vault, when the triple is still incomplete. *)
Definition resolve_keyvault (t : triple) (keyvault_name : option string) : M S triple :=
  if incomplete t
  then if truthy (of_arg keyvault_name)
       then _get_azure_keyvault_secret keyvault_name
       else ret none3
  else ret t.

(** Lines 18-21: fail, or build the client. *)
Definition build (t : triple) (secure cert_check : bool) : M S MinioClientWrapper :=
  if incomplete t
  then raise config_error
  else c <- Minio_new t secure cert_check ;; ret {| client := c |}.

Definition __init__
    (endpoint access_key secret_key secret_name namespace keyvault_name : option string)
    (secure cert_check : bool) : M S MinioClientWrapper :=
  t1 <- resolve_k8s (of_arg endpoint, of_arg access_key, of_arg secret_key)
                    secret_name namespace ;;
  t2 <- resolve_keyvault t1 keyvault_name ;;
  build t2 secure cert_check.

(** *** Storage operations *)

Definition bucket_exists (self : MinioClientWrapper) (bucket_name : string) : M S bool :=
  extern (CallBucketExists bucket_name) (client_bucket_exists w (client self) bucket_name).

Definition create_bucket (self : MinioClientWrapper) (bucket_name : string) : M S unit :=
  exists_ <- bucket_exists self bucket_name ;;
  if negb exists_
  then extern (CallMakeBucket bucket_name) (client_make_bucket w (client self) bucket_name)
  else ret tt.

Definition upload_file (self : MinioClientWrapper) (bucket_name object_name file_path : string)
    : M S unit :=
  extern (CallFputObject bucket_name object_name file_path)
         (client_fput_object w (client self) bucket_name object_name file_path).

Definition download_file (self : MinioClientWrapper) (bucket_name object_name file_path : string)
    : M S unit :=
  extern (CallFgetObject bucket_name object_name file_path)
         (client_fget_object w (client self) bucket_name object_name file_path).

(** [[f(x) for x in g]]: the elements in the order they are yielded; an
    exception that ends the iteration ends the comprehension. *)
Fixpoint comprehension {A B : Type} (f : A -> B) (items : list A) (stop : option exn)
    : result (list B) :=
  match items with
  | [] =>
      match stop with
      | None => Ok []
      | Some e => Raised e
      end
  | x :: rest =>
      match comprehension f rest stop with
      | Ok l => Ok (f x :: l)
      | Raised e => Raised e
      end
  end.

Definition list_objects (self : MinioClientWrapper) (bucket_name : string)
    (prefix : option string) : M S (list string) :=
  g <- extern (CallListObjects bucket_name prefix)
              (client_list_objects w (client self) bucket_name prefix) ;;
  lift (comprehension object_name (yields g) (stops_with g)).

Definition delete_object (self : MinioClientWrapper) (bucket_name object_name : string)
    : M S unit :=
  extern (CallRemoveObject bucket_name object_name)
         (client_remove_object w (client self) bucket_name object_name).

Definition delete_bucket (self : MinioClientWrapper) (bucket_name : string) : M S unit :=
  extern (CallRemoveBucket bucket_name) (client_remove_bucket w (client self) bucket_name).

End Wrapper.

(** ** Vocabulary of the statements *)

(** An argument that is given and not empty. *)
Definition given (a : option string) : bool := truthy (of_arg a).

(** Some call of the log is of kind [p]: that API was consulted. *)
Definition consulted (p : call -> bool) (log : list call) : bool := existsb p log.

(** [msg] contains [needle]. *)
Definition mentions (msg needle : string) : bool :=
  match String.index 0 needle msg with
  | Some _ => true
  | None => false
  end.

(** [name] starts with [prefix]; no prefix matches every name. *)
Definition has_prefix (prefix : option string) (name : string) : bool :=
  match prefix with
  | None => true
  | Some p => String.prefix p name
  end.

(** The client [Minio(...)] builds from a triple. *)
Definition client_of (t : triple) (secure cert_check : bool) : Minio :=
  {| m_endpoint := t.1.1; m_access_key := t.1.2; m_secret_key := t.2;
     m_secure := secure; m_cert_check := cert_check |}.

Section Vocabulary.
Context {S : Type} (w : World S).

(** The run [o], placed after the calls [log] made before it. *)
Definition after {A} (log : list call) (o : out S A) : out S A :=
  Out (res o) (world o) (log ++ calls o).

(** Lines 15-21, entered with the triple [t1] left by lines 12-13. *)
Definition from_keyvault (t1 : triple) (keyvault_name : option string)
    (secure cert_check : bool) : M S MinioClientWrapper :=
  t2 <- resolve_keyvault w t1 keyvault_name ;;
  build w t2 secure cert_check.

(** The run [o] built the storage client from the triple [t]: after the
    calls [lookups], in state [s1], the constructor was called once, with
    exactly [t]; the wrapper holds that client unless the constructor
    itself raised. *)
Definition built_with (t : triple) (secure cert_check : bool) (s1 : S)
    (lookups : list call) (o : out S MinioClientWrapper) : Prop :=
  let c := client_of t secure cert_check in
  calls o = lookups ++ [CallMinio t.1.1 t.1.2 t.2 secure cert_check] /\
  world o = (minio_init w c s1).2 /\
  res o = match (minio_init w c s1).1 with
          | Ok _ => Ok {| client := c |}
          | Raised e => Raised e
          end.

(** The step of lines 29-30 at which the payload of [secret] fails. *)
Inductive payload_raises (secret : V1Secret) (e : exn) : Prop :=
| missing_payload_key :
    subscript (data secret) "minio" = Raised e ->
    payload_raises secret e
| base64_raises payload :
    subscript (data secret) "minio" = Ok payload ->
    b64decode w payload = Raised e ->
    payload_raises secret e
| utf8_raises payload raw :
    subscript (data secret) "minio" = Ok payload ->
    b64decode w payload = Ok raw ->
    decode_utf8 w raw = Raised e ->
    payload_raises secret e
| json_raises payload raw text :
    subscript (data secret) "minio" = Ok payload ->
    b64decode w payload = Ok raw ->
    decode_utf8 w raw = Ok text ->
    json_loads w text = Raised e ->
    payload_raises secret e
| fields_raise payload raw text secret_data :
    subscript (data secret) "minio" = Ok payload ->
    b64decode w payload = Ok raw ->
    decode_utf8 w raw = Ok text ->
    json_loads w text = Ok secret_data ->
    credentials_of secret_data = Raised e ->
    payload_raises secret e.

(** The stage of the cluster lookup at which [e] is raised, with the state
    and the calls made up to there. *)
Inductive k8s_raises (secret_name namespace : option string) (s : S) (e : exn)
    : S -> list call -> Prop :=
| k8s_auth_raises s1 :
    load_incluster_config w s = (Raised e, s1) ->
    k8s_raises secret_name namespace s e s1 [CallLoadInclusterConfig]
| k8s_api_raises s1 s2 :
    load_incluster_config w s = (Ok tt, s1) ->
    CoreV1Api w s1 = (Raised e, s2) ->
    k8s_raises secret_name namespace s e s2 [CallLoadInclusterConfig; CallCoreV1Api]
| k8s_read_raises s1 s2 s3 :
    load_incluster_config w s = (Ok tt, s1) ->
    CoreV1Api w s1 = (Ok tt, s2) ->
    read_namespaced_secret w secret_name namespace s2 = (Raised e, s3) ->
    k8s_raises secret_name namespace s e s3
      [CallLoadInclusterConfig; CallCoreV1Api;
       CallReadNamespacedSecret secret_name namespace]
| k8s_payload_raises s1 s2 s3 secret :
    load_incluster_config w s = (Ok tt, s1) ->
    CoreV1Api w s1 = (Ok tt, s2) ->
    read_namespaced_secret w secret_name namespace s2 = (Ok secret, s3) ->
    payload_raises secret e ->
    k8s_raises secret_name namespace s e s3
      [CallLoadInclusterConfig; CallCoreV1Api;
       CallReadNamespacedSecret secret_name namespace].

(** The stage of the key-vault lookup at which [e] is raised. *)
Inductive keyvault_raises (keyvault_name : option string) (s : S) (e : exn)
    : S -> list call -> Prop :=
| keyvault_auth_raises s1 :
    DefaultAzureCredential w s = (Raised e, s1) ->
    keyvault_raises keyvault_name s e s1 [CallDefaultAzureCredential]
| keyvault_client_raises s1 s2 :
    DefaultAzureCredential w s = (Ok tt, s1) ->
    SecretClient w (vault_url_of keyvault_name) s1 = (Raised e, s2) ->
    keyvault_raises keyvault_name s e s2
      [CallDefaultAzureCredential; CallSecretClient (vault_url_of keyvault_name)]
| keyvault_fetch_raises s1 s2 s3 :
    DefaultAzureCredential w s = (Ok tt, s1) ->
    SecretClient w (vault_url_of keyvault_name) s1 = (Ok tt, s2) ->
    get_secret w (vault_url_of keyvault_name) "minio-credentials" s2 = (Raised e, s3) ->
    keyvault_raises keyvault_name s e s3
      [CallDefaultAzureCredential; CallSecretClient (vault_url_of keyvault_name);
       CallGetSecret (vault_url_of keyvault_name) "minio-credentials"]
| keyvault_json_raises s1 s2 s3 secret :
    DefaultAzureCredential w s = (Ok tt, s1) ->
    SecretClient w (vault_url_of keyvault_name) s1 = (Ok tt, s2) ->
    get_secret w (vault_url_of keyvault_name) "minio-credentials" s2 = (Ok secret, s3) ->
    json_loads_value w (value secret) = Raised e ->
    keyvault_raises keyvault_name s e s3
      [CallDefaultAzureCredential; CallSecretClient (vault_url_of keyvault_name);
       CallGetSecret (vault_url_of keyvault_name) "minio-credentials"]
| keyvault_fields_raise s1 s2 s3 secret secret_data :
    DefaultAzureCredential w s = (Ok tt, s1) ->
    SecretClient w (vault_url_of keyvault_name) s1 = (Ok tt, s2) ->
    get_secret w (vault_url_of keyvault_name) "minio-credentials" s2 = (Ok secret, s3) ->
    json_loads_value w (value secret) = Ok secret_data ->
    credentials_of secret_data = Raised e ->
    keyvault_raises keyvault_name s e s3
      [CallDefaultAzureCredential; CallSecretClient (vault_url_of keyvault_name);
       CallGetSecret (vault_url_of keyvault_name) "minio-credentials"].

(** The field [key] of a decoded record, [None] when it is missing. *)
Definition field (fields : gmap string pyval) (key : string) : pyval :=
  default PNone (fields !! key).

(** Two calls of [create_bucket] in succession. *)
Definition create_bucket_twice (self : MinioClientWrapper) (bucket_name : string) : M S unit :=
  _ <- create_bucket w self bucket_name ;;
  create_bucket w self bucket_name.

End Vocabulary.

(** ** In-memory doubles of the collaborators

    A world built from a fixture: the secrets the cluster and the vault
    hold, what the two decoding functions answer, and a storage server
    that keeps buckets in a map.  The theorems below hold for every world;
    this one serves to run the wrapper on concrete inputs. *)

Module Double.

Record Fixture := {
  incluster : result unit;
  secrets : gmap (string * string) V1Secret;
  vault : gmap (string * string) string;
  base64_table : gmap string string;
  json_table : gmap string pyval;
  refused_endpoints : list string
}.

(** The storage server: its buckets, a fault that makes every storage
    call raise, and a fault that breaks a listing after its last entry. *)
Record Server := {
  buckets : gmap string (list Object);
  outage : option exn;
  listing_fault : option exn
}.

Definition answer {A} (s : Server) (k : result A * Server) : result A * Server :=
  match outage s with
  | Some e => (Raised e, s)
  | None => k
  end.

Definition with_buckets (s : Server) (b : gmap string (list Object)) : Server :=
  {| buckets := b; outage := outage s; listing_fault := listing_fault s |}.

Definition s3_error (code : string) : exn := Exc S3Error code.

Definition named (o : string) (x : Object) : bool := String.eqb (object_name x) o.

Definition world (fx : Fixture) : World Server := {|
  load_incluster_config := fun s => (incluster fx, s);
  CoreV1Api := fun s => (Ok tt, s);
  read_namespaced_secret := fun name namespace s =>
    match name, namespace with
    | Some n, Some ns =>
        match secrets fx !! (ns, n) with
        | Some secret => (Ok secret, s)
        | None => (Raised (Exc ApiException "404 Not Found"), s)
        end
    | _, _ => (Raised (Exc ValueError "missing the required parameter"), s)
    end;
  DefaultAzureCredential := fun s => (Ok tt, s);
  SecretClient := fun _ s => (Ok tt, s);
  get_secret := fun url name s =>
    match vault fx !! (url, name) with
    | Some v => (Ok {| value := Some v |}, s)
    | None => (Raised (Exc ResourceNotFoundError "SecretNotFound"), s)
    end;
  b64decode := fun text =>
    match base64_table fx !! text with
    | Some plain => Ok (String.list_byte_of_string plain)
    | None => Raised (Exc BinasciiError "Incorrect padding")
    end;
  decode_utf8 := fun raw => Ok (String.string_of_list_byte raw);
  json_loads := fun text =>
    match json_table fx !! text with
    | Some v => Ok v
    | None => Raised (Exc JSONDecodeError "Expecting value")
    end;
  minio_init := fun c s =>
    match m_endpoint c with
    | PStr e =>
        if existsb (String.eqb e) (refused_endpoints fx)
        then (Raised (Exc ValueError "path in endpoint is not allowed"), s)
        else (Ok tt, s)
    | _ => (Raised (Exc TypeError "endpoint must be a string"), s)
    end;
  client_bucket_exists := fun _ b s =>
    answer s (Ok (bool_decide (is_Some (buckets s !! b))), s);
  client_make_bucket := fun _ b s =>
    answer s
      match buckets s !! b with
      | Some _ => (Raised (s3_error "BucketAlreadyOwnedByYou"), s)
      | None => (Ok tt, with_buckets s (<[b := []]> (buckets s)))
      end;
  client_fput_object := fun _ b o _ s =>
    answer s
      match buckets s !! b with
      | Some objs =>
          let kept := List.filter (fun x => negb (named o x)) objs in
          let new := {| object_name := o; is_dir := false; obj_size := 0 |} in
          (Ok tt, with_buckets s (<[b := kept ++ [new]]> (buckets s)))
      | None => (Raised (s3_error "NoSuchBucket"), s)
      end;
  client_fget_object := fun _ b o _ s =>
    answer s
      match buckets s !! b with
      | Some objs =>
          if existsb (named o) objs then (Ok tt, s)
          else (Raised (s3_error "NoSuchKey"), s)
      | None => (Raised (s3_error "NoSuchBucket"), s)
      end;
  client_list_objects := fun _ b prefix s =>
    answer s
      match buckets s !! b with
      | Some objs =>
          (Ok {| yields := List.filter (fun x => has_prefix prefix (object_name x)) objs;
                 stops_with := listing_fault s |}, s)
      | None => (Ok {| yields := []; stops_with := Some (s3_error "NoSuchBucket") |}, s)
      end;
  client_remove_object := fun _ b o s =>
    answer s
      match buckets s !! b with
      | Some objs =>
          (Ok tt, with_buckets s (<[b := List.filter (fun x => negb (named o x)) objs]> (buckets s)))
      | None => (Raised (s3_error "NoSuchBucket"), s)
      end;
  client_remove_bucket := fun _ b s =>
    answer s
      match buckets s !! b with
      | Some [] => (Ok tt, with_buckets s (delete b (buckets s)))
      | Some (_ :: _) => (Raised (s3_error "BucketNotEmpty"), s)
      | None => (Raised (s3_error "NoSuchBucket"), s)
      end
|}.

(** The record a well-formed secret decodes to. *)
Definition record_of (host id secret : string) : pyval :=
  PDict (<["host" := PStr host]> (<["id" := PStr id]> (<["secret" := PStr secret]> ∅))).

(** A cluster that holds secret [minio-secret] in namespace [default] and
    a vault [my-keyvault] that holds [minio-credentials]. *)
Definition fixture : Fixture := {|
  incluster := Ok tt;
  secrets := {[ ("default", "minio-secret") :=
                  {| data := Some {[ "minio" := "bWluaW8ubG9jYWw=" ]} |} ]};
  vault := {[ ("https://my-keyvault.vault.azure.net", "minio-credentials") := "vault-record" ]};
  base64_table := {[ "bWluaW8ubG9jYWw=" := "cluster-record" ]};
  json_table := {[ "cluster-record" := record_of "minio.local" "AK" "SK";
                   "vault-record" := record_of "vault.minio.local" "VAK" "VSK" ]};
  refused_endpoints := ["http://play.min.io/path"]
|}.

(** A workload outside any cluster: there is no in-cluster identity. *)
Definition outside_cluster : Fixture := {|
  incluster := Raised (Exc ConfigException "Service host/port is not set.");
  secrets := ∅;
  vault := vault fixture;
  base64_table := ∅;
  json_table := json_table fixture;
  refused_endpoints := []
|}.

(** The operator interrupts the process while it authenticates. *)
Definition interrupted : Fixture := {|
  incluster := Raised (Exc KeyboardInterrupt "");
  secrets := ∅;
  vault := vault fixture;
  base64_table := ∅;
  json_table := json_table fixture;
  refused_endpoints := []
|}.

Definition empty_server : Server :=
  {| buckets := ∅; outage := None; listing_fault := None |}.

Definition file (name : string) : Object :=
  {| object_name := name; is_dir := false; obj_size := 1 |}.

(** A server that already holds bucket [my-bucket] with three objects. *)
Definition server : Server :=
  {| buckets := {[ "my-bucket" := [file "logs/a.txt"; file "data.csv"; file "logs/b.txt"] ]};
     outage := None; listing_fault := None |}.

Definition down (e : exn) (s : Server) : Server :=
  {| buckets := buckets s; outage := Some e; listing_fault := listing_fault s |}.

Definition self : MinioClientWrapper :=
  {| client := {| m_endpoint := PStr "play.min.io"; m_access_key := PStr "AK";
                  m_secret_key := PStr "SK"; m_secure := true; m_cert_check := true |} |}.

End Double.

(** ** The example script (lines 75-98)

    Run as a program the module builds four wrappers in turn -- from
    explicit credentials, from the cluster secret with the key vault as
    fallback, from the cluster secret alone, from the key vault alone --
    and with each creates a bucket, uploads [./example.txt] and prints the
    listing of the bucket.  Nothing is caught: the first exception ends
    the script. *)

Section ExampleScript.
Context {S : Type} (w : World S).

(** Lines 77-80; the value is the listing handed to [print]. *)
Definition main_direct : M S (list string) :=
  minio_client <- __init__ w (Some "play.min.io") (Some "your-access-key")
                    (Some "your-secret-key") None None None true true ;;
  _ <- create_bucket w minio_client "my-bucket" ;;
  _ <- upload_file w minio_client "my-bucket" "example.txt" "./example.txt" ;;
  list_objects w minio_client "my-bucket" None.

(** Lines 83-86. *)
Definition main_fallback : M S (list string) :=
  minio_client_fallback <- __init__ w None None None (Some "minio-secret")
                             (Some "default") (Some "my-keyvault") true true ;;
  _ <- create_bucket w minio_client_fallback "fallback-bucket" ;;
  _ <- upload_file w minio_client_fallback "fallback-bucket" "example.txt" "./example.txt" ;;
  list_objects w minio_client_fallback "fallback-bucket" None.

(** Lines 89-92. *)
Definition main_k8s : M S (list string) :=
  minio_client_k8s <- __init__ w None None None (Some "minio-secret")
                        (Some "default") None true false ;;
  _ <- create_bucket w minio_client_k8s "k8s-bucket" ;;
  _ <- upload_file w minio_client_k8s "k8s-bucket" "example.txt" "./example.txt" ;;
  list_objects w minio_client_k8s "k8s-bucket" None.

(** Lines 95-98. *)
Definition main_azure : M S (list string) :=
  minio_client_azure <- __init__ w None None None None None
                          (Some "my-keyvault") false true ;;
  _ <- create_bucket w minio_client_azure "azure-bucket" ;;
  _ <- upload_file w minio_client_azure "azure-bucket" "example.txt" "./example.txt" ;;
  list_objects w minio_client_azure "azure-bucket" None.

(** A run of the script: the listings printed so far, and the run. *)
Record script_run := ScriptRun { printed : list (list string); run : out S unit }.

(** [print(m)] after [before]; once an exception is raised nothing more
    is run or printed. *)
Definition then_print (before : script_run) (m : M S (list string)) : script_run :=
  match run before with
  | Out (Ok _) s1 c1 =>
      match m s1 with
      | Out (Ok names) s2 c2 =>
          ScriptRun (printed before ++ [names]) (Out (Ok tt) s2 (c1 ++ c2))
      | Out (Raised e) s2 c2 =>
          ScriptRun (printed before) (Out (Raised e) s2 (c1 ++ c2))
      end
  | Out (Raised _) _ _ => before
  end.

Definition main (s : S) : script_run :=
  then_print
    (then_print
       (then_print
          (then_print (ScriptRun [] (Out (Ok tt) s [])) main_direct)
          main_fallback)
       main_k8s)
    main_azure.

End ExampleScript.

(** ** Further vocabulary *)

(** The three calls of a cluster lookup and of a key-vault lookup, in
    the order the lookups make them. *)
Definition k8s_sequence (secret_name namespace : option string) : list call :=
  [CallLoadInclusterConfig; CallCoreV1Api;
   CallReadNamespacedSecret secret_name namespace].

Definition keyvault_sequence (keyvault_name : option string) : list call :=
  [CallDefaultAzureCredential; CallSecretClient (vault_url_of keyvault_name);
   CallGetSecret (vault_url_of keyvault_name) "minio-credentials"].

(** The triple a client was built from. *)
Definition triple_of (c : Minio) : triple :=
  (m_endpoint c, m_access_key c, m_secret_key c).

(** A call that removes an object or a bucket. *)
Definition is_removal (c : call) : bool :=
  match c with
  | CallRemoveObject _ _ | CallRemoveBucket _ => true
  | _ => false
  end.

(** A call of the storage client that the example script makes. *)
Definition is_storage_call (c : call) : bool :=
  match c with
  | CallBucketExists _ | CallMakeBucket _ | CallFputObject _ _ _
  | CallListObjects _ _ => true
  | _ => false
  end.

(** A decoded payload that is not a record. *)
Definition not_a_record (v : pyval) : bool :=
  match v with
  | PDict _ => false
  | _ => true
  end.

Section FurtherVocabulary.
Context {S : Type} (w : World S).

(** [create_bucket] called [n] times in succession. *)
Fixpoint create_bucket_times (self : MinioClientWrapper) (bucket_name : string)
    (n : nat) : M S unit :=
  match n with
  | O => ret tt
  | Datatypes.S m =>
      _ <- create_bucket w self bucket_name ;;
      create_bucket_times self bucket_name m
  end.

(** The storage client reports [bucket] as existing once its creation has
    succeeded, and goes on reporting a bucket it has reported. *)
Definition keeps_buckets (c : Minio) (bucket : string) : Prop :=
  (forall s1 s2,
     client_make_bucket w c bucket s1 = (Ok tt, s2) ->
     exists s3, client_bucket_exists w c bucket s2 = (Ok true, s3)) /\
  (forall s1 s2,
     client_bucket_exists w c bucket s1 = (Ok true, s2) ->
     exists s3, client_bucket_exists w c bucket s2 = (Ok true, s3)).

End FurtherVocabulary.

Section ResolutionVocabulary.
Context {S : Type} (w : World S).

(** The run [o] is decided by the key vault alone: the calls [log] were
    made before, the world is in state [s1], and no triple is carried
    over.  Without a vault name the run ends in the configuration error at
    once.  With one the key-vault lookup is made from [s1]: a complete
    triple builds the client, from that triple in all three fields; an
    incomplete one ends in the configuration error; what the lookup raises
    is the result. *)
Definition decided_by_keyvault (keyvault_name : option string)
    (secure cert_check : bool) (s1 : S) (log : list call)
    (o : out S MinioClientWrapper) : Prop :=
  (given keyvault_name = false -> o = Out (Raised config_error) s1 log) /\
  (given keyvault_name = true ->
     (forall t2 s2 c2,
        _get_azure_keyvault_secret w keyvault_name s1 = Out (Ok t2) s2 c2 ->
        (complete t2 = true -> built_with w t2 secure cert_check s2 (log ++ c2) o) /\
        (complete t2 = false -> o = Out (Raised config_error) s2 (log ++ c2))) /\
     (forall e s2 c2,
        _get_azure_keyvault_secret w keyvault_name s1 = Out (Raised e) s2 c2 ->
        o = Out (Raised e) s2 (log ++ c2))).

End ResolutionVocabulary.

(** Cluster secrets that do not carry a usable payload, and a vault whose
    secret is not a record. *)
Module Malformed.

(** The secret exists but has no [minio] entry. *)
Definition unlabelled : Double.Fixture := {|
  Double.incluster := Ok tt;
  Double.secrets := {[ ("default", "minio-secret") :=
                         {| data := Some {[ "password" := "c2VjcmV0" ]} |} ]};
  Double.vault := ∅;
  Double.base64_table := ∅;
  Double.json_table := ∅;
  Double.refused_endpoints := []
|}.

(** The payload decodes to a JSON array, the vault secret to a number. *)
Definition not_records : Double.Fixture := {|
  Double.incluster := Ok tt;
  Double.secrets := {[ ("default", "minio-secret") :=
                         {| data := Some {[ "minio" := "WyJtaW5pbyJd" ]} |} ]};
  Double.vault := {[ ("https://my-keyvault.vault.azure.net", "minio-credentials") := "42" ]};
  Double.base64_table := {[ "WyJtaW5pbyJd" := "array" ]};
  Double.json_table := {[ "array" := PList [PStr "minio"]; "42" := PInt 42 ]};
  Double.refused_endpoints := []
|}.

(** A workload with neither a cluster identity nor a secret in the vault. *)
Definition laptop : Double.Fixture := {|
  Double.incluster := Raised (Exc ConfigException "Service host/port is not set.");
  Double.secrets := ∅;
  Double.vault := ∅;
  Double.base64_table := ∅;
  Double.json_table := ∅;
  Double.refused_endpoints := []
|}.

(** The cluster record has a host and nothing else; the vault holds a
    whole record. *)
Definition partial_record : Double.Fixture := {|
  Double.incluster := Ok tt;
  Double.secrets := {[ ("default", "minio-secret") :=
                         {| data := Some {[ "minio" := "eyJob3N0In0=" ]} |} ]};
  Double.vault := {[ ("https://my-keyvault.vault.azure.net", "minio-credentials") := "vault-record" ]};
  Double.base64_table := {[ "eyJob3N0In0=" := "host-only" ]};
  Double.json_table := {[ "host-only" := PDict {[ "host" := PStr "cluster.minio.local" ]};
                          "vault-record" := Double.record_of "vault.minio.local" "VAK" "VSK" ]};
  Double.refused_endpoints := []
|}.

End Malformed.

(** ** A storage client that lists one level

    [Minio.list_objects] lists recursively only when [recursive=True] is
    passed.  Otherwise the keys below the prefix are grouped at the next
    [/]: a key with no further [/] is listed itself, the others are shown
    as one directory entry, named by the prefix up to and including that
    [/]. *)

Module OneLevel.

(** The entry shown for the object [x], whose name starts with [prefix]. *)
Definition entry (prefix : string) (x : Object) : Object :=
  let name := object_name x in
  let skip := String.length prefix in
  let rest := String.substring skip (String.length name - skip) name in
  match String.index 0 "/" rest with
  | Some i =>
      {| object_name := String.substring 0 (skip + i + 1) name;
         is_dir := true; obj_size := 0 |}
  | None => x
  end.

(** The entries of [l], each name once, in the order of first occurrence. *)
Fixpoint distinct (seen : list string) (l : list Object) : list Object :=
  match l with
  | [] => []
  | x :: rest =>
      if existsb (String.eqb (object_name x)) seen
      then distinct seen rest
      else x :: distinct (object_name x :: seen) rest
  end.

Definition listing (prefix : option string) (objs : list Object) : list Object :=
  distinct []
    (List.map (entry (default "" prefix))
       (List.filter (fun x => has_prefix prefix (object_name x)) objs)).

(** The world of [Double.world], with the one-level listing. *)
Definition world (fx : Double.Fixture) : World Double.Server :=
  let w := Double.world fx in {|
  load_incluster_config := load_incluster_config w;
  CoreV1Api := CoreV1Api w;
  read_namespaced_secret := read_namespaced_secret w;
  DefaultAzureCredential := DefaultAzureCredential w;
  SecretClient := SecretClient w;
  get_secret := get_secret w;
  b64decode := b64decode w;
  decode_utf8 := decode_utf8 w;
  json_loads := json_loads w;
  minio_init := minio_init w;
  client_bucket_exists := client_bucket_exists w;
  client_make_bucket := client_make_bucket w;
  client_fput_object := client_fput_object w;
  client_fget_object := client_fget_object w;
  client_list_objects := fun _ b prefix s =>
    Double.answer s
      match Double.buckets s !! b with
      | Some objs =>
          (Ok {| yields := listing prefix objs;
                 stops_with := Double.listing_fault s |}, s)
      | None => (Ok {| yields := []; stops_with := Some (Double.s3_error "NoSuchBucket") |}, s)
      end;
  client_remove_object := client_remove_object w;
  client_remove_bucket := client_remove_bucket w
|}.

End OneLevel.

(** * Properties *)

Ltac unfold_run :=
  unfold __init__, from_keyvault, resolve_k8s, resolve_keyvault, build, Minio_new,
    _get_k8s_secret, _get_azure_keyvault_secret, _get_k8s_secret_try,
    _get_azure_keyvault_secret_try, try_except_Exception,
    create_bucket_twice, create_bucket, bucket_exists, upload_file, download_file,
    list_objects, delete_object, delete_bucket,
    bind, extern, lift, ret, raise, after, given in *.

Ltac cases := repeat (case_match; simplify_eq/=); try done.

Section Facts.
Context {S : Type} (w : World S).
Implicit Types (s : S) (t : triple) (e : exn) (log : list call).

(** ** The three stages of [__init__] *)

Lemma incomplete_none3 : incomplete none3 = true.
Proof. reflexivity. Qed.

Lemma complete_false t : complete t = false <-> incomplete t = true.
Proof. unfold complete. destruct (incomplete t); split; done. Qed.

Lemma complete_true t : complete t = true <-> incomplete t = false.
Proof. unfold complete. destruct (incomplete t); split; done. Qed.

Lemma given_spec (a : option string) :
  given a = true <-> exists text, a = Some text /\ text <> "".
Proof.
  unfold given. destruct a as [text|]; simpl.
  - destruct (String.eqb_spec text ""); simpl; split.
    + done.
    + intros (? & [= <-] & ?). done.
    + intros _. by exists text.
    + done.
  - split; [done | by intros (? & ? & ?)].
Qed.

Lemma complete_of_args (endpoint access_key secret_key : option string) :
  complete (of_arg endpoint, of_arg access_key, of_arg secret_key)
  = given endpoint && given access_key && given secret_key.
Proof.
  unfold complete, incomplete, given.
  by destruct (truthy (of_arg endpoint)), (truthy (of_arg access_key)),
              (truthy (of_arg secret_key)).
Qed.

Lemma consulted_app p log1 log2 :
  consulted p (log1 ++ log2) = consulted p log1 || consulted p log2.
Proof. apply existsb_app. Qed.

Lemma resolve_k8s_kept t secret_name namespace s :
  incomplete t = false ->
  resolve_k8s w t secret_name namespace s = Out (Ok t) s [].
Proof. unfold resolve_k8s. by intros ->. Qed.

Lemma resolve_k8s_skipped t secret_name namespace s :
  incomplete t = true ->
  given secret_name && given namespace = false ->
  resolve_k8s w t secret_name namespace s = Out (Ok none3) s [].
Proof. unfold resolve_k8s, given. by intros -> ->. Qed.

Lemma resolve_k8s_lookup t secret_name namespace s :
  incomplete t = true ->
  given secret_name && given namespace = true ->
  resolve_k8s w t secret_name namespace s = _get_k8s_secret w secret_name namespace s.
Proof. unfold resolve_k8s, given. by intros -> ->. Qed.

Lemma resolve_keyvault_kept t keyvault_name s :
  incomplete t = false ->
  resolve_keyvault w t keyvault_name s = Out (Ok t) s [].
Proof. unfold resolve_keyvault. by intros ->. Qed.

Lemma resolve_keyvault_skipped t keyvault_name s :
  incomplete t = true ->
  given keyvault_name = false ->
  resolve_keyvault w t keyvault_name s = Out (Ok none3) s [].
Proof. unfold resolve_keyvault, given. by intros -> ->. Qed.

Lemma resolve_keyvault_lookup t keyvault_name s :
  incomplete t = true ->
  given keyvault_name = true ->
  resolve_keyvault w t keyvault_name s = _get_azure_keyvault_secret w keyvault_name s.
Proof. unfold resolve_keyvault, given. by intros -> ->. Qed.

Lemma init_stages endpoint access_key secret_key secret_name namespace keyvault_name
    secure cert_check s :
  __init__ w endpoint access_key secret_key secret_name namespace keyvault_name
    secure cert_check s =
  match resolve_k8s w (of_arg endpoint, of_arg access_key, of_arg secret_key)
          secret_name namespace s with
  | Out (Ok t1) s1 c1 => after c1 (from_keyvault w t1 keyvault_name secure cert_check s1)
  | Out (Raised e) s1 c1 => Out (Raised e) s1 c1
  end.
Proof.
  unfold __init__, from_keyvault, after, bind.
  destruct (resolve_k8s _ _ _ _ _) as [[t1|e] s1 c1]; [|done].
  destruct (resolve_keyvault _ _ _ _) as [[t2|e] s2 c2]; [|done].
  by destruct (build _ _ _ _ _).
Qed.

Lemma from_keyvault_stages t1 keyvault_name secure cert_check s1 :
  from_keyvault w t1 keyvault_name secure cert_check s1 =
  match resolve_keyvault w t1 keyvault_name s1 with
  | Out (Ok t2) s2 c2 => after c2 (build w t2 secure cert_check s2)
  | Out (Raised e) s2 c2 => Out (Raised e) s2 c2
  end.
Proof.
  unfold from_keyvault, after, bind.
  destruct (resolve_keyvault _ _ _ _) as [[t2|e] s2 c2]; [|done].
  by destruct (build _ _ _ _ _).
Qed.

Lemma after_after {A} log1 log2 (o : out S A) :
  after log1 (after log2 o) = after (log1 ++ log2) o.
Proof. unfold after; simpl. by rewrite app_assoc. Qed.

Lemma after_nil {A} (o : out S A) : after [] o = o.
Proof. by destruct o. Qed.

Lemma build_incomplete t secure cert_check s :
  incomplete t = true ->
  build w t secure cert_check s = Out (Raised config_error) s [].
Proof. unfold build. by intros ->. Qed.

Lemma build_complete t secure cert_check s :
  incomplete t = false ->
  built_with w t secure cert_check s [] (build w t secure cert_check s).
Proof.
  intros Ht. unfold build, built_with, client_of. rewrite Ht.
  destruct t as [[endpoint access_key] secret_key]. unfold_run. simpl.
  by destruct (minio_init _ _ _) as [[[]|e] s1].
Qed.

Lemma built_with_after t secure cert_check s log0 log o :
  built_with w t secure cert_check s log o ->
  built_with w t secure cert_check s (log0 ++ log) (after log0 o).
Proof.
  intros (Hc & Hw & Hr). unfold built_with, after; simpl.
  rewrite Hc, app_assoc. done.
Qed.

(** The calls a run of [build] makes are constructor calls with its triple. *)
Lemma build_calls t secure cert_check s c :
  In c (calls (build w t secure cert_check s)) ->
  incomplete t = false /\ c = CallMinio t.1.1 t.1.2 t.2 secure cert_check.
Proof.
  unfold build. destruct (incomplete t) eqn:Ht; [done|].
  destruct t as [[endpoint access_key] secret_key]. unfold_run. simpl.
  destruct (minio_init _ _ _) as [[[]|e] s1]; simpl; intros [<-|[]]; done.
Qed.

(** ** What the lookups call and return *)

Lemma k8s_calls secret_name namespace s :
  Forall (fun c => is_k8s_call c = true)
    (calls (_get_k8s_secret w secret_name namespace s)).
Proof. unfold_run. cases; repeat constructor. Qed.

Lemma keyvault_calls keyvault_name s :
  Forall (fun c => is_keyvault_call c = true)
    (calls (_get_azure_keyvault_secret w keyvault_name s)).
Proof. unfold_run. cases; repeat constructor. Qed.

Lemma not_consulted (p q : call -> bool) log :
  (forall c, q c = true -> p c = false) ->
  Forall (fun c => q c = true) log ->
  consulted p log = false.
Proof.
  intros Hpq. induction 1 as [|c log Hc _ IH]; [done|].
  simpl. by rewrite (Hpq c Hc), IH.
Qed.

Lemma k8s_not_keyvault c : is_k8s_call c = true -> is_keyvault_call c = false.
Proof. by destruct c. Qed.

Lemma k8s_not_constructor c : is_k8s_call c = true -> is_minio_constructor c = false.
Proof. by destruct c. Qed.

Lemma keyvault_not_k8s c : is_keyvault_call c = true -> is_k8s_call c = false.
Proof. by destruct c. Qed.

Lemma keyvault_not_constructor c :
  is_keyvault_call c = true -> is_minio_constructor c = false.
Proof. by destruct c. Qed.

Lemma resolve_k8s_calls t secret_name namespace s :
  Forall (fun c => is_k8s_call c = true)
    (calls (resolve_k8s w t secret_name namespace s)).
Proof.
  unfold resolve_k8s. cases; try apply k8s_calls; constructor.
Qed.

Lemma resolve_keyvault_calls t keyvault_name s :
  Forall (fun c => is_keyvault_call c = true)
    (calls (resolve_keyvault w t keyvault_name s)).
Proof.
  unfold resolve_keyvault. cases; try apply keyvault_calls; constructor.
Qed.

(** ** Credential resolution *)

Lemma in_k8s_not_constructor log c :
  Forall (fun c => is_k8s_call c = true) log -> In c log ->
  is_minio_constructor c = false.
Proof.
  intros Hall Hin. apply k8s_not_constructor.
  rewrite Forall_forall in Hall. apply Hall. by apply list_elem_of_In.
Qed.

Lemma in_keyvault_not_constructor log c :
  Forall (fun c => is_keyvault_call c = true) log -> In c log ->
  is_minio_constructor c = false.
Proof.
  intros Hall Hin. apply keyvault_not_constructor.
  rewrite Forall_forall in Hall. apply Hall. by apply list_elem_of_In.
Qed.

(** Where a constructor call in the log of [__init__] comes from: the
    triple it carries is complete and is the one left by the two
    resolution stages. *)
Lemma init_constructor_call endpoint access_key secret_key secret_name namespace
    keyvault_name secure cert_check s c :
  In c (calls (__init__ w endpoint access_key secret_key secret_name namespace
                 keyvault_name secure cert_check s)) ->
  is_minio_constructor c = true ->
  exists t1 s1 c1 t2 s2 c2,
    resolve_k8s w (of_arg endpoint, of_arg access_key, of_arg secret_key)
      secret_name namespace s = Out (Ok t1) s1 c1 /\
    resolve_keyvault w t1 keyvault_name s1 = Out (Ok t2) s2 c2 /\
    incomplete t2 = false /\
    c = CallMinio t2.1.1 t2.1.2 t2.2 secure cert_check.
Proof.
  rewrite init_stages.
  pose proof (resolve_k8s_calls (of_arg endpoint, of_arg access_key, of_arg secret_key)
                secret_name namespace s) as Hk.
  destruct (resolve_k8s _ _ _ _ _) as [[t1|x] s1 c1] eqn:Ek; simpl in *.
  - rewrite from_keyvault_stages.
    pose proof (resolve_keyvault_calls t1 keyvault_name s1) as Hv.
    destruct (resolve_keyvault _ _ _ _) as [[t2|x] s2 c2] eqn:Ev; simpl in *.
    + rewrite !in_app_iff. intros [Hin|[Hin|Hin]] Hc.
      * by rewrite (in_k8s_not_constructor _ _ Hk Hin) in Hc.
      * by rewrite (in_keyvault_not_constructor _ _ Hv Hin) in Hc.
      * apply build_calls in Hin as [Ht2 ->]. by exists t1, s1, c1, t2, s2, c2.
    + rewrite in_app_iff. intros [Hin|Hin] Hc.
      * by rewrite (in_k8s_not_constructor _ _ Hk Hin) in Hc.
      * by rewrite (in_keyvault_not_constructor _ _ Hv Hin) in Hc.
  - intros Hin Hc. by rewrite (in_k8s_not_constructor _ _ Hk Hin) in Hc.
Qed.

(** C1: credential resolution short-circuits by priority.  Explicit
    arguments that are complete build the client and no lookup is made;
    otherwise a complete cluster secret builds it and the key vault is not
    consulted; otherwise a complete key-vault secret builds it.  Conversely
    a client is only ever built from the complete triple of the first
    source, in that order, that yields one. *)
Theorem init_short_circuits_by_priority
    (endpoint access_key secret_key secret_name namespace keyvault_name : option string)
    (secure cert_check : bool) (s : S) :
  let t0 := (of_arg endpoint, of_arg access_key, of_arg secret_key) in
  let o := __init__ w endpoint access_key secret_key secret_name namespace
             keyvault_name secure cert_check s in
  (given endpoint && given access_key && given secret_key = true ->
     built_with w t0 secure cert_check s [] o /\
     consulted is_k8s_call (calls o) = false /\
     consulted is_keyvault_call (calls o) = false) /\
  (forall t1 s1 c1,
     complete t0 = false ->
     given secret_name && given namespace = true ->
     _get_k8s_secret w secret_name namespace s = Out (Ok t1) s1 c1 ->
     complete t1 = true ->
     built_with w t1 secure cert_check s1 c1 o /\
     consulted is_keyvault_call (calls o) = false) /\
  (forall t1 s1 c1 t2 s2 c2,
     complete t0 = false ->
     resolve_k8s w t0 secret_name namespace s = Out (Ok t1) s1 c1 ->
     complete t1 = false ->
     given keyvault_name = true ->
     _get_azure_keyvault_secret w keyvault_name s1 = Out (Ok t2) s2 c2 ->
     complete t2 = true ->
     built_with w t2 secure cert_check s2 (c1 ++ c2) o) /\
  (forall host id secret sec cc,
     In (CallMinio host id secret sec cc) (calls o) ->
     complete (host, id, secret) = true /\ sec = secure /\ cc = cert_check /\
     ((host, id, secret) = t0 \/
      (complete t0 = false /\ given secret_name && given namespace = true /\
       res (_get_k8s_secret w secret_name namespace s) = Ok (host, id, secret)) \/
      (exists t1 s1 c1,
         complete t0 = false /\
         resolve_k8s w t0 secret_name namespace s = Out (Ok t1) s1 c1 /\
         complete t1 = false /\ given keyvault_name = true /\
         res (_get_azure_keyvault_secret w keyvault_name s1) = Ok (host, id, secret)))).
Proof.
  intros t0 o. subst o t0.
  split; [|split; [|split]].
  - rewrite <- complete_of_args. intros Ht%complete_true.
    rewrite init_stages, resolve_k8s_kept by done.
    rewrite from_keyvault_stages, resolve_keyvault_kept by done.
    rewrite !after_nil.
    pose proof (build_complete _ secure cert_check s Ht) as Hb.
    split; [done|]. destruct Hb as (-> & _). done.
  - intros t1 s1 c1 Ht%complete_false Hg Hk Ht1%complete_true.
    rewrite init_stages, resolve_k8s_lookup, Hk by done.
    rewrite from_keyvault_stages, resolve_keyvault_kept by done.
    rewrite after_after, app_nil_r.
    pose proof (build_complete t1 secure cert_check s1 Ht1) as Hb.
    split.
    + rewrite <- (app_nil_r c1) at 1. by apply built_with_after.
    + destruct Hb as (Hc & _).
      unfold after; simpl. rewrite Hc, consulted_app. simpl.
      pose proof (k8s_calls secret_name namespace s) as Hall. rewrite Hk in Hall.
      simpl in Hall. by rewrite (not_consulted _ _ _ k8s_not_keyvault Hall).
  - intros t1 s1 c1 t2 s2 c2 Ht%complete_false Hk Ht1%complete_false Hg Hv
      Ht2%complete_true.
    rewrite init_stages, Hk.
    rewrite from_keyvault_stages, resolve_keyvault_lookup, Hv by done.
    rewrite after_after.
    rewrite <- (app_nil_r (c1 ++ c2)) at 1. apply built_with_after.
    by apply build_complete.
  - intros host id secret sec cc Hin.
    apply init_constructor_call in Hin
      as (t1 & s1 & c1 & t2 & s2 & c2 & Ek & Ev & Ht2 & Hc); [|done].
    injection Hc as -> -> -> -> ->.
    replace (t2.1.1, t2.1.2, t2.2) with t2 by (by destruct t2 as [[? ?] ?]).
    split; [by apply complete_true|]. do 2 (split; [done|]).
    destruct (incomplete (of_arg endpoint, of_arg access_key, of_arg secret_key)) eqn:Ht.
    + destruct (incomplete t1) eqn:Ht1.
      * right; right. exists t1, s1, c1.
        destruct (given keyvault_name) eqn:Hkv.
        -- rewrite resolve_keyvault_lookup in Ev by done.
           rewrite Ev. by rewrite !complete_false.
        -- rewrite resolve_keyvault_skipped in Ev by done.
           injection Ev as <- <- <-. done.
      * rewrite resolve_keyvault_kept in Ev by done. injection Ev as <- <- <-.
        destruct (given secret_name && given namespace) eqn:Hsn.
        -- right; left. rewrite resolve_k8s_lookup in Ek by done.
           rewrite Ek. by rewrite complete_false.
        -- rewrite resolve_k8s_skipped in Ek by done. injection Ek as <- <- <-. done.
    + rewrite resolve_k8s_kept in Ek by done. injection Ek as <- <- <-.
      rewrite resolve_keyvault_kept in Ev by done. injection Ev as <- <- <-.
      by left.
Qed.

Lemma build_log t secure cert_check s :
  consulted is_k8s_call (calls (build w t secure cert_check s)) = false /\
  consulted is_keyvault_call (calls (build w t secure cert_check s)) = false.
Proof.
  destruct (incomplete t) eqn:Ht.
  - by rewrite build_incomplete.
  - destruct (build_complete t secure cert_check s Ht) as (-> & _). done.
Qed.

Lemma from_keyvault_no_k8s t keyvault_name secure cert_check s :
  consulted is_k8s_call (calls (from_keyvault w t keyvault_name secure cert_check s)) = false.
Proof.
  rewrite from_keyvault_stages.
  pose proof (resolve_keyvault_calls t keyvault_name s) as Hv.
  destruct (resolve_keyvault _ _ _ _) as [[t2|x] s2 c2]; simpl in *.
  - rewrite consulted_app, (not_consulted _ _ _ keyvault_not_k8s Hv).
    apply build_log.
  - apply (not_consulted _ _ _ keyvault_not_k8s Hv).
Qed.

(** C2: when no source yields a complete triple -- the explicit arguments
    are incomplete, the cluster lookup is skipped or returns an incomplete
    triple, and so does the key-vault lookup -- construction raises the
    configuration error, whose message names the three sources, and the
    constructor of the storage client is never called. *)
Theorem exhausted_sources_raise_configuration_error
    (endpoint access_key secret_key secret_name namespace keyvault_name : option string)
    (secure cert_check : bool) (s : S)
    (t1 : triple) (s1 : S) (c1 : list call) (t2 : triple) (s2 : S) (c2 : list call) :
  complete (of_arg endpoint, of_arg access_key, of_arg secret_key) = false ->
  resolve_k8s w (of_arg endpoint, of_arg access_key, of_arg secret_key)
    secret_name namespace s = Out (Ok t1) s1 c1 ->
  complete t1 = false ->
  resolve_keyvault w t1 keyvault_name s1 = Out (Ok t2) s2 c2 ->
  complete t2 = false ->
  __init__ w endpoint access_key secret_key secret_name namespace keyvault_name
    secure cert_check s = Out (Raised config_error) s2 (c1 ++ c2) /\
  consulted is_minio_constructor (c1 ++ c2) = false /\
  exn_cls config_error = ValueError /\
  mentions (exn_msg config_error) "provided arguments" = true /\
  mentions (exn_msg config_error) "Kubernetes secrets" = true /\
  mentions (exn_msg config_error) "Azure Key Vault" = true.
Proof.
  intros _ Hk _ Hv Ht2%complete_false.
  split; [|split; [|by vm_compute]].
  - rewrite init_stages, Hk, from_keyvault_stages, Hv, build_incomplete by done.
    unfold after; simpl. by rewrite app_nil_r.
  - pose proof (resolve_k8s_calls (of_arg endpoint, of_arg access_key, of_arg secret_key)
                  secret_name namespace s) as Hall1.
    pose proof (resolve_keyvault_calls t1 keyvault_name s1) as Hall2.
    rewrite Hk in Hall1. rewrite Hv in Hall2. simpl in *.
    rewrite consulted_app.
    by rewrite (not_consulted _ _ _ k8s_not_constructor Hall1),
               (not_consulted _ _ _ keyvault_not_constructor Hall2).
Qed.

Lemma keyvault_decides t1 keyvault_name secure cert_check s1 c1 :
  incomplete t1 = true ->
  decided_by_keyvault w keyvault_name secure cert_check s1 c1
    (after c1 (from_keyvault w t1 keyvault_name secure cert_check s1)).
Proof.
  intros Ht1. split.
  - intros Hg.
    rewrite from_keyvault_stages, resolve_keyvault_skipped by done.
    rewrite build_incomplete by done. unfold after; simpl. by rewrite !app_nil_r.
  - intros Hg. split.
    + intros t2 s2 c2 Hv.
      rewrite from_keyvault_stages, resolve_keyvault_lookup, Hv by done.
      rewrite after_after. split.
      * intros Ht2%complete_true.
        rewrite <- (app_nil_r (c1 ++ c2)) at 1. apply built_with_after.
        by apply build_complete.
      * intros Ht2%complete_false. rewrite build_incomplete by done.
        unfold after; simpl. by rewrite app_nil_r.
    + intros e s2 c2 Hv.
      by rewrite from_keyvault_stages, resolve_keyvault_lookup, Hv.
Qed.

(** C5: partial credential sets are never used and never merged.  Explicit
    arguments that are incomplete are dropped as a whole (the run is the
    run without them) and the cluster lookup comes next: its triple, when
    complete, builds the client in all three fields.  An incomplete cluster
    triple is dropped as a whole and the key-vault lookup comes next: its
    triple, when complete, builds the client in all three fields, and an
    incomplete one ends in the configuration error.  The triple a client
    is built from is, in all three fields, the triple of one source. *)
Theorem partial_credentials_never_used
    (endpoint access_key secret_key secret_name namespace keyvault_name : option string)
    (secure cert_check : bool) (s : S) :
  let t0 := (of_arg endpoint, of_arg access_key, of_arg secret_key) in
  let o := __init__ w endpoint access_key secret_key secret_name namespace
             keyvault_name secure cert_check s in
  (complete t0 = false ->
     o = __init__ w None None None secret_name namespace keyvault_name
           secure cert_check s) /\
  (forall t1 s1 c1,
     complete t0 = false ->
     resolve_k8s w t0 secret_name namespace s = Out (Ok t1) s1 c1 ->
     complete t1 = false ->
     o = after c1 (from_keyvault w none3 keyvault_name secure cert_check s1)) /\
  (forall t1 s1 c1 t2 s2 c2,
     complete t0 = false ->
     resolve_k8s w t0 secret_name namespace s = Out (Ok t1) s1 c1 ->
     complete t1 = false ->
     resolve_keyvault w t1 keyvault_name s1 = Out (Ok t2) s2 c2 ->
     complete t2 = false ->
     res o = Raised config_error /\ consulted is_minio_constructor (calls o) = false) /\
  (forall host id secret sec cc,
     In (CallMinio host id secret sec cc) (calls o) ->
     complete (host, id, secret) = true /\
     ((host, id, secret) = t0 \/
      (exists s1 c1,
         _get_k8s_secret w secret_name namespace s = Out (Ok (host, id, secret)) s1 c1) \/
      (exists s1 s2 c2,
         _get_azure_keyvault_secret w keyvault_name s1
           = Out (Ok (host, id, secret)) s2 c2))) /\
  (forall t1 s1 c1,
     complete t0 = false ->
     given secret_name && given namespace = true ->
     _get_k8s_secret w secret_name namespace s = Out (Ok t1) s1 c1 ->
     (complete t1 = true -> built_with w t1 secure cert_check s1 c1 o) /\
     (complete t1 = false -> decided_by_keyvault w keyvault_name secure cert_check s1 c1 o)) /\
  (complete t0 = false ->
   given secret_name && given namespace = false ->
   decided_by_keyvault w keyvault_name secure cert_check s [] o).
Proof.
  intros t0 o. subst o t0.
  split; [|split; [|split; [|split; [|split]]]].
  - intros Ht0%complete_false.
    rewrite !init_stages. unfold resolve_k8s. by rewrite Ht0.
  - intros t1 s1 c1 _ Hk Ht1%complete_false.
    rewrite init_stages, Hk. f_equal.
    rewrite !from_keyvault_stages. unfold resolve_keyvault. by rewrite Ht1.
  - intros t1 s1 c1 t2 s2 c2 _ Hk _ Hv Ht2%complete_false.
    rewrite init_stages, Hk, from_keyvault_stages, Hv, build_incomplete by done.
    unfold after; simpl. split; [done|]. rewrite app_nil_r.
    pose proof (resolve_k8s_calls (of_arg endpoint, of_arg access_key, of_arg secret_key)
                  secret_name namespace s) as Hall1.
    pose proof (resolve_keyvault_calls t1 keyvault_name s1) as Hall2.
    rewrite Hk in Hall1. rewrite Hv in Hall2. simpl in *.
    rewrite consulted_app.
    by rewrite (not_consulted _ _ _ k8s_not_constructor Hall1),
               (not_consulted _ _ _ keyvault_not_constructor Hall2).
  - intros host id secret sec cc Hin.
    apply init_constructor_call in Hin
      as (t1 & s1 & c1 & t2 & s2 & c2 & Ek & Ev & Ht2 & Hc); [|done].
    injection Hc as -> -> -> -> ->.
    replace (t2.1.1, t2.1.2, t2.2) with t2 by (by destruct t2 as [[? ?] ?]).
    split; [by apply complete_true|].
    unfold resolve_keyvault in Ev. destruct (incomplete t1) eqn:Ht1.
    + destruct (truthy (of_arg keyvault_name)).
      * right; right. by exists s1, s2, c2.
      * injection Ev as <- <- <-. done.
    + injection Ev as <- <- <-.
      unfold resolve_k8s in Ek.
      destruct (incomplete (of_arg endpoint, of_arg access_key, of_arg secret_key)) eqn:Ht0.
      * destruct (truthy (of_arg secret_name) && truthy (of_arg namespace)).
        -- right; left. by exists s1, c1.
        -- injection Ek as <- <- <-. done.
      * injection Ek as <- <- <-. by left.
  - intros t1 s1 c1 Ht0%complete_false Hg Hk.
    rewrite init_stages, resolve_k8s_lookup, Hk by done. split.
    + intros Ht1%complete_true.
      rewrite from_keyvault_stages, resolve_keyvault_kept by done.
      rewrite after_after, app_nil_r.
      rewrite <- (app_nil_r c1) at 1. apply built_with_after.
      by apply build_complete.
    + intros Ht1%complete_false. by apply keyvault_decides.
  - intros Ht0%complete_false Hg.
    rewrite init_stages, resolve_k8s_skipped by done.
    by apply keyvault_decides.
Qed.

(** C9: a lookup is attempted only when the names it needs are given.
    Without both [secret_name] and [namespace] non-empty no cluster call is
    made and the run is the run with neither; without a non-empty
    [keyvault_name] no key-vault call is made and the run is the run
    without it.  A cluster call in the log means both names were given, a
    key-vault call means the vault name was given. *)
Theorem lookups_need_their_names
    (endpoint access_key secret_key secret_name namespace keyvault_name : option string)
    (secure cert_check : bool) (s : S) :
  let o := __init__ w endpoint access_key secret_key secret_name namespace
             keyvault_name secure cert_check s in
  (given secret_name && given namespace = false ->
     consulted is_k8s_call (calls o) = false /\
     o = __init__ w endpoint access_key secret_key None None keyvault_name
           secure cert_check s) /\
  (given keyvault_name = false ->
     consulted is_keyvault_call (calls o) = false /\
     o = __init__ w endpoint access_key secret_key secret_name namespace None
           secure cert_check s) /\
  (consulted is_k8s_call (calls o) = true ->
     given secret_name = true /\ given namespace = true) /\
  (consulted is_keyvault_call (calls o) = true -> given keyvault_name = true).
Proof.
  intros o. subst o.
  assert (Hskip_k8s : given secret_name && given namespace = false ->
    resolve_k8s w (of_arg endpoint, of_arg access_key, of_arg secret_key)
      secret_name namespace s
    = resolve_k8s w (of_arg endpoint, of_arg access_key, of_arg secret_key) None None s).
  { unfold resolve_k8s, given. by intros ->. }
  assert (Hnone_k8s : consulted is_k8s_call
    (calls (__init__ w endpoint access_key secret_key None None keyvault_name
              secure cert_check s)) = false).
  { rewrite init_stages.
    destruct (incomplete (of_arg endpoint, of_arg access_key, of_arg secret_key)) eqn:Ht0;
      [rewrite resolve_k8s_skipped by done | rewrite resolve_k8s_kept by done];
      simpl; apply from_keyvault_no_k8s. }
  assert (Hskip_kv : forall t1 s1, given keyvault_name = false ->
    from_keyvault w t1 keyvault_name secure cert_check s1
    = from_keyvault w t1 None secure cert_check s1).
  { intros t1 s1 Hg. rewrite !from_keyvault_stages. unfold resolve_keyvault.
    unfold given in Hg. by rewrite Hg. }
  assert (Hnone_kv : consulted is_keyvault_call
    (calls (__init__ w endpoint access_key secret_key secret_name namespace None
              secure cert_check s)) = false).
  { rewrite init_stages.
    pose proof (resolve_k8s_calls (of_arg endpoint, of_arg access_key, of_arg secret_key)
                  secret_name namespace s) as Hall.
    destruct (resolve_k8s _ _ _ _ _) as [[t1|x] s1 c1]; simpl in *.
    - rewrite consulted_app, (not_consulted _ _ _ k8s_not_keyvault Hall). simpl.
      rewrite from_keyvault_stages.
      destruct (incomplete t1) eqn:Ht1;
        [rewrite resolve_keyvault_skipped by done | rewrite resolve_keyvault_kept by done];
        simpl; first [done | apply build_log].
    - apply (not_consulted _ _ _ k8s_not_keyvault Hall). }
  assert (Hk8s : given secret_name && given namespace = false ->
    __init__ w endpoint access_key secret_key secret_name namespace keyvault_name
      secure cert_check s
    = __init__ w endpoint access_key secret_key None None keyvault_name
        secure cert_check s).
  { intros Hg. by rewrite !init_stages, Hskip_k8s. }
  assert (Hkv : given keyvault_name = false ->
    __init__ w endpoint access_key secret_key secret_name namespace keyvault_name
      secure cert_check s
    = __init__ w endpoint access_key secret_key secret_name namespace None
        secure cert_check s).
  { intros Hg. rewrite !init_stages.
    destruct (resolve_k8s _ _ _ _ _) as [[t1|x] s1 c1]; [|done].
    by rewrite Hskip_kv. }
  split; [|split; [|split]].
  - intros Hg. split; [|by apply Hk8s]. by rewrite Hk8s.
  - intros Hg. split; [|by apply Hkv]. by rewrite Hkv.
  - intros Hc. destruct (given secret_name && given namespace) eqn:Hg.
    + by apply andb_true_iff in Hg.
    + rewrite Hk8s, Hnone_k8s in Hc; done.
  - intros Hc. destruct (given keyvault_name) eqn:Hg; [done|].
    rewrite Hkv, Hnone_kv in Hc; done.
Qed.

(** ** Exceptions inside the lookups *)

Lemma k8s_raises_run secret_name namespace s e s1 c1 :
  k8s_raises w secret_name namespace s e s1 c1 <->
  _get_k8s_secret_try w secret_name namespace s = Out (Raised e) s1 c1.
Proof.
  split.
  - intros H. unfold_run.
    destruct H as [? H1|? ? H1 H2|? ? ? H1 H2 H3|? ? ? ? H1 H2 H3 Hp].
    + by rewrite H1.
    + by rewrite H1, H2.
    + by rewrite H1, H2, H3.
    + rewrite H1, H2, H3.
      destruct Hp as [P1|? P1 P2|? ? P1 P2 P3|? ? ? P1 P2 P3 P4|? ? ? ? P1 P2 P3 P4 P5].
      * by rewrite P1.
      * by rewrite P1, P2.
      * by rewrite P1, P2, P3.
      * by rewrite P1, P2, P3, P4.
      * by rewrite P1, P2, P3, P4, P5.
  - unfold_run.
    destruct (load_incluster_config w s) as [[[]|x] sa] eqn:H1;
      [|intros [= -> -> <-]; by apply k8s_auth_raises].
    destruct (CoreV1Api w sa) as [[[]|x] sb] eqn:H2;
      [|intros [= -> -> <-]; by eapply k8s_api_raises].
    destruct (read_namespaced_secret w secret_name namespace sb) as [[secret|x] sc] eqn:H3;
      [|intros [= -> -> <-]; by eapply k8s_read_raises].
    simpl.
    destruct (subscript (data secret) "minio") as [payload|x] eqn:P1;
      [|intros [= -> -> <-]; eapply k8s_payload_raises; eauto;
        by apply missing_payload_key].
    destruct (b64decode w payload) as [raw|x] eqn:P2;
      [|intros [= -> -> <-]; eapply k8s_payload_raises; eauto;
        by eapply base64_raises].
    destruct (decode_utf8 w raw) as [text|x] eqn:P3;
      [|intros [= -> -> <-]; eapply k8s_payload_raises; eauto;
        by eapply utf8_raises].
    destruct (json_loads w text) as [secret_data|x] eqn:P4;
      [|intros [= -> -> <-]; eapply k8s_payload_raises; eauto;
        by eapply json_raises].
    destruct (credentials_of secret_data) as [t|x] eqn:P5; [done|].
    intros [= -> -> <-]. eapply k8s_payload_raises; eauto.
    by eapply fields_raise.
Qed.

Lemma keyvault_raises_run keyvault_name s e s1 c1 :
  keyvault_raises w keyvault_name s e s1 c1 <->
  _get_azure_keyvault_secret_try w keyvault_name s = Out (Raised e) s1 c1.
Proof.
  split.
  - intros H. unfold_run.
    destruct H as [? H1|? ? H1 H2|? ? ? H1 H2 H3|? ? ? ? H1 H2 H3 H4|? ? ? ? ? H1 H2 H3 H4 H5].
    + by rewrite H1.
    + by rewrite H1, H2.
    + by rewrite H1, H2, H3.
    + by rewrite H1, H2, H3, H4.
    + by rewrite H1, H2, H3, H4, H5.
  - unfold_run.
    destruct (DefaultAzureCredential w s) as [[[]|x] sa] eqn:H1;
      [|intros [= -> -> <-]; by apply keyvault_auth_raises].
    destruct (SecretClient w (vault_url_of keyvault_name) sa) as [[[]|x] sb] eqn:H2;
      [|intros [= -> -> <-]; by eapply keyvault_client_raises].
    destruct (get_secret w (vault_url_of keyvault_name) "minio-credentials" sb)
      as [[secret|x] sc] eqn:H3;
      [|intros [= -> -> <-]; by eapply keyvault_fetch_raises].
    simpl.
    destruct (json_loads_value w (value secret)) as [secret_data|x] eqn:H4;
      [|intros [= -> -> <-]; by eapply keyvault_json_raises].
    destruct (credentials_of secret_data) as [t|x] eqn:H5; [done|].
    intros [= -> -> <-]. by eapply keyvault_fields_raise.
Qed.

Lemma try_swallows {A} (body : M S A) (a : A) s e s1 c1 :
  body s = Out (Raised e) s1 c1 ->
  is_Exception e = true ->
  try_except_Exception body (ret a) s = Out (Ok a) s1 c1.
Proof.
  intros Hb He. unfold try_except_Exception, ret. rewrite Hb, He.
  by rewrite app_nil_r.
Qed.

Lemma try_passes {A} (body handler : M S A) s e s1 c1 :
  body s = Out (Raised e) s1 c1 ->
  is_Exception e = false ->
  try_except_Exception body handler s = Out (Raised e) s1 c1.
Proof.
  intros Hb He. unfold try_except_Exception. by rewrite Hb, He.
Qed.

(** What leaves a [try ... except Exception] is not an [Exception]. *)
Lemma try_raises_inv {A} (body : M S A) (a : A) s e :
  res (try_except_Exception body (ret a) s) = Raised e ->
  is_Exception e = false /\ res (body s) = Raised e.
Proof.
  unfold try_except_Exception, ret.
  destruct (body s) as [[x|x] s1 c1]; simpl; [done|].
  destruct (is_Exception x) eqn:Hx; simpl; [done|]. by intros [= <-].
Qed.

Lemma k8s_lookup_raises_inv secret_name namespace s e :
  res (_get_k8s_secret w secret_name namespace s) = Raised e ->
  is_Exception e = false.
Proof. intros H. by apply try_raises_inv in H as [? _]. Qed.

Lemma keyvault_lookup_raises_inv keyvault_name s e :
  res (_get_azure_keyvault_secret w keyvault_name s) = Raised e ->
  is_Exception e = false.
Proof. intros H. by apply try_raises_inv in H as [? _]. Qed.

Lemma keyvault_first_call keyvault_name s :
  exists rest,
    calls (_get_azure_keyvault_secret w keyvault_name s)
    = CallDefaultAzureCredential :: rest.
Proof. unfold_run. cases; simpl; eauto. Qed.

(** C3, as amended: at whatever stage of the cluster lookup an instance of
    [Exception] is raised (authentication, secret read, missing payload
    key, base64, UTF-8 or JSON decoding, field extraction), the lookup
    returns the empty triple and [__init__] goes on with the key-vault
    stage; the key-vault lookup does the same, and [__init__] then ends in
    the configuration error.  An exception that is not an instance of
    [Exception] is not caught: it leaves the lookup and [__init__]. *)
Theorem lookups_swallow_Exception_only :
  (forall secret_name namespace s e s1 c1,
     k8s_raises w secret_name namespace s e s1 c1 ->
     is_Exception e = true ->
     _get_k8s_secret w secret_name namespace s = Out (Ok none3) s1 c1 /\
     forall endpoint access_key secret_key keyvault_name secure cert_check,
       complete (of_arg endpoint, of_arg access_key, of_arg secret_key) = false ->
       given secret_name && given namespace = true ->
       let o := __init__ w endpoint access_key secret_key secret_name namespace
                  keyvault_name secure cert_check s in
       o = after c1 (from_keyvault w none3 keyvault_name secure cert_check s1) /\
       (given keyvault_name = true ->
          exists rest, calls o = c1 ++ CallDefaultAzureCredential :: rest)) /\
  (forall keyvault_name s e s1 c1,
     keyvault_raises w keyvault_name s e s1 c1 ->
     is_Exception e = true ->
     _get_azure_keyvault_secret w keyvault_name s = Out (Ok none3) s1 c1 /\
     forall t secure cert_check,
       complete t = false ->
       given keyvault_name = true ->
       from_keyvault w t keyvault_name secure cert_check s
       = Out (Raised config_error) s1 c1) /\
  (forall secret_name namespace s e s1 c1,
     k8s_raises w secret_name namespace s e s1 c1 ->
     is_Exception e = false ->
     _get_k8s_secret w secret_name namespace s = Out (Raised e) s1 c1 /\
     forall endpoint access_key secret_key keyvault_name secure cert_check,
       complete (of_arg endpoint, of_arg access_key, of_arg secret_key) = false ->
       given secret_name && given namespace = true ->
       __init__ w endpoint access_key secret_key secret_name namespace
         keyvault_name secure cert_check s = Out (Raised e) s1 c1) /\
  (forall keyvault_name s e s1 c1,
     keyvault_raises w keyvault_name s e s1 c1 ->
     is_Exception e = false ->
     _get_azure_keyvault_secret w keyvault_name s = Out (Raised e) s1 c1 /\
     forall t secure cert_check,
       complete t = false ->
       given keyvault_name = true ->
       from_keyvault w t keyvault_name secure cert_check s = Out (Raised e) s1 c1).
Proof.
  split; [|split; [|split]].
  - intros secret_name namespace s e s1 c1 Hr He. apply k8s_raises_run in Hr.
    assert (Hl : _get_k8s_secret w secret_name namespace s = Out (Ok none3) s1 c1)
      by (by eapply try_swallows).
    split; [done|].
    intros endpoint access_key secret_key keyvault_name secure cert_check
      Ht0%complete_false Hg o. subst o.
    rewrite init_stages, resolve_k8s_lookup, Hl by done. split; [done|].
    intros Hkv. unfold after; simpl.
    rewrite from_keyvault_stages, resolve_keyvault_lookup by done.
    destruct (keyvault_first_call keyvault_name s1) as [rest Hrest].
    destruct (_get_azure_keyvault_secret w keyvault_name s1) as [[t2|x] s2 c2];
      simpl in *; subst c2; simpl; eauto.
  - intros keyvault_name s e s1 c1 Hr He. apply keyvault_raises_run in Hr.
    assert (Hl : _get_azure_keyvault_secret w keyvault_name s = Out (Ok none3) s1 c1)
      by (by eapply try_swallows).
    split; [done|].
    intros t secure cert_check Ht%complete_false Hg.
    rewrite from_keyvault_stages, resolve_keyvault_lookup, Hl by done.
    rewrite build_incomplete by done. unfold after; simpl. by rewrite app_nil_r.
  - intros secret_name namespace s e s1 c1 Hr He. apply k8s_raises_run in Hr.
    assert (Hl : _get_k8s_secret w secret_name namespace s = Out (Raised e) s1 c1)
      by (by apply try_passes).
    split; [done|].
    intros endpoint access_key secret_key keyvault_name secure cert_check
      Ht0%complete_false Hg.
    by rewrite init_stages, resolve_k8s_lookup, Hl.
  - intros keyvault_name s e s1 c1 Hr He. apply keyvault_raises_run in Hr.
    assert (Hl : _get_azure_keyvault_secret w keyvault_name s = Out (Raised e) s1 c1)
      by (by apply try_passes).
    split; [done|].
    intros t secure cert_check Ht%complete_false Hg.
    by rewrite from_keyvault_stages, resolve_keyvault_lookup, Hl.
Qed.

(** ** The payload of the two secrets *)

Lemma credentials_of_dict fields :
  credentials_of (PDict fields)
  = Ok (field fields "host", field fields "id", field fields "secret").
Proof.
  unfold credentials_of, py_get, field.
  by destruct (fields !! "host"), (fields !! "id"), (fields !! "secret").
Qed.

Lemma credentials_of_inv v t :
  credentials_of v = Ok t ->
  exists fields,
    v = PDict fields /\
    t = (field fields "host", field fields "id", field fields "secret").
Proof.
  destruct v; try done. rewrite credentials_of_dict. intros [= <-]. eauto.
Qed.

Lemma subscript_inv d key payload :
  subscript d key = Ok payload ->
  exists entries, d = Some entries /\ entries !! key = Some payload.
Proof.
  unfold subscript. destruct d as [entries|]; [|done].
  destruct (entries !! key) eqn:E; [|done]. intros [= <-]. eauto.
Qed.

(** C8: the payload contract of the two secrets.  When every step
    succeeds, the cluster lookup reads the secret [secret_name] of
    [namespace], base64-decodes the entry [minio] of its data, parses the
    text as a record and returns its fields [host], [id], [secret]; the
    key-vault lookup fetches the secret [minio-credentials] of the vault at
    [https://<keyvault_name>.vault.azure.net], parses its value and returns
    the same three fields.  Conversely a lookup whose body returns went
    through exactly these steps. *)
Theorem secret_payload_contract :
  (forall secret_name namespace s s1 s2 s3 secret entries payload raw text fields,
     load_incluster_config w s = (Ok tt, s1) ->
     CoreV1Api w s1 = (Ok tt, s2) ->
     read_namespaced_secret w secret_name namespace s2 = (Ok secret, s3) ->
     data secret = Some entries ->
     entries !! "minio" = Some payload ->
     b64decode w payload = Ok raw ->
     decode_utf8 w raw = Ok text ->
     json_loads w text = Ok (PDict fields) ->
     _get_k8s_secret w secret_name namespace s
     = Out (Ok (field fields "host", field fields "id", field fields "secret")) s3
         [CallLoadInclusterConfig; CallCoreV1Api;
          CallReadNamespacedSecret secret_name namespace]) /\
  (forall keyvault_name s s1 s2 s3 secret text fields,
     let url := "https://" +:+ keyvault_name +:+ ".vault.azure.net" in
     DefaultAzureCredential w s = (Ok tt, s1) ->
     SecretClient w url s1 = (Ok tt, s2) ->
     get_secret w url "minio-credentials" s2 = (Ok secret, s3) ->
     value secret = Some text ->
     json_loads w text = Ok (PDict fields) ->
     _get_azure_keyvault_secret w (Some keyvault_name) s
     = Out (Ok (field fields "host", field fields "id", field fields "secret")) s3
         [CallDefaultAzureCredential; CallSecretClient url;
          CallGetSecret url "minio-credentials"]) /\
  (forall secret_name namespace s t s3 log,
     _get_k8s_secret_try w secret_name namespace s = Out (Ok t) s3 log ->
     log = [CallLoadInclusterConfig; CallCoreV1Api;
            CallReadNamespacedSecret secret_name namespace] /\
     exists s1 s2 secret entries payload raw text fields,
       load_incluster_config w s = (Ok tt, s1) /\
       CoreV1Api w s1 = (Ok tt, s2) /\
       read_namespaced_secret w secret_name namespace s2 = (Ok secret, s3) /\
       data secret = Some entries /\
       entries !! "minio" = Some payload /\
       b64decode w payload = Ok raw /\
       decode_utf8 w raw = Ok text /\
       json_loads w text = Ok (PDict fields) /\
       t = (field fields "host", field fields "id", field fields "secret")) /\
  (forall keyvault_name s t s3 log,
     let url := "https://" +:+ keyvault_name +:+ ".vault.azure.net" in
     _get_azure_keyvault_secret_try w (Some keyvault_name) s = Out (Ok t) s3 log ->
     log = [CallDefaultAzureCredential; CallSecretClient url;
            CallGetSecret url "minio-credentials"] /\
     exists s1 s2 secret text fields,
       DefaultAzureCredential w s = (Ok tt, s1) /\
       SecretClient w url s1 = (Ok tt, s2) /\
       get_secret w url "minio-credentials" s2 = (Ok secret, s3) /\
       value secret = Some text /\
       json_loads w text = Ok (PDict fields) /\
       t = (field fields "host", field fields "id", field fields "secret")).
Proof.
  split; [|split; [|split]].
  - intros secret_name namespace s s1 s2 s3 secret entries payload raw text fields
      H1 H2 H3 H4 H5 H6 H7 H8.
    unfold_run. rewrite H1, H2, H3. simpl. unfold subscript.
    rewrite H4, H5, H6, H7, H8, credentials_of_dict. done.
  - intros keyvault_name s s1 s2 s3 secret text fields url H1 H2 H3 H4 H5.
    unfold_run. unfold vault_url_of, py_format. fold url.
    rewrite H1, H2, H3. simpl. unfold json_loads_value.
    rewrite H4, H5, credentials_of_dict. done.
  - intros secret_name namespace s t s3 log. unfold_run.
    destruct (load_incluster_config w s) as [[[]|x] sa] eqn:H1; [|done].
    destruct (CoreV1Api w sa) as [[[]|x] sb] eqn:H2; [|done].
    destruct (read_namespaced_secret w secret_name namespace sb) as [[secret|x] sc] eqn:H3;
      [|done].
    simpl.
    destruct (subscript (data secret) "minio") as [payload|x] eqn:P1; [|done].
    destruct (b64decode w payload) as [raw|x] eqn:P2; [|done].
    destruct (decode_utf8 w raw) as [text|x] eqn:P3; [|done].
    destruct (json_loads w text) as [secret_data|x] eqn:P4; [|done].
    destruct (credentials_of secret_data) as [t'|x] eqn:P5; [|done].
    intros [= -> -> <-]. split; [done|].
    apply subscript_inv in P1 as (entries & Hd & He).
    apply credentials_of_inv in P5 as (fields & -> & ->).
    by exists sa, sb, secret, entries, payload, raw, text, fields.
  - intros keyvault_name s t s3 log url. unfold_run.
    unfold vault_url_of, py_format. fold url.
    destruct (DefaultAzureCredential w s) as [[[]|x] sa] eqn:H1; [|done].
    destruct (SecretClient w url sa) as [[[]|x] sb] eqn:H2; [|done].
    destruct (get_secret w url "minio-credentials" sb) as [[secret|x] sc] eqn:H3; [|done].
    simpl. unfold json_loads_value.
    destruct (value secret) as [text|] eqn:H4; [|done].
    destruct (json_loads w text) as [secret_data|x] eqn:H5; [|done].
    destruct (credentials_of secret_data) as [t'|x] eqn:H6; [|done].
    intros [= -> -> <-]. split; [done|].
    apply credentials_of_inv in H6 as (fields & -> & ->).
    by exists sa, sb, secret, text, fields.
Qed.

(** ** Storage operations *)

Lemma comprehension_stops {A B} (f : A -> B) (items : list A) :
  comprehension f items None = Ok (List.map f items).
Proof. induction items as [|x rest IH]; simpl; [done|]. by rewrite IH. Qed.

Lemma comprehension_raises {A B} (f : A -> B) (items : list A) e :
  comprehension f items (Some e) = Raised e.
Proof. induction items as [|x rest IH]; simpl; [done|]. by rewrite IH. Qed.

Lemma map_filter_names {A B} (f : A -> B) (p : B -> bool) (l : list A) :
  List.map f (List.filter (fun x => p (f x)) l) = List.filter p (List.map f l).
Proof.
  induction l as [|x l IH]; simpl; [done|].
  destruct (p (f x)); simpl; by rewrite IH.
Qed.

Lemma creation_calls_app bucket log1 log2 :
  creation_calls bucket (log1 ++ log2)
  = creation_calls bucket log1 + creation_calls bucket log2.
Proof. unfold creation_calls. by rewrite List.filter_app, length_app. Qed.

(** The result and the log of [create_bucket], by the answer of the
    existence check. *)
Lemma create_bucket_run self bucket_name s :
  create_bucket w self bucket_name s =
  match client_bucket_exists w (client self) bucket_name s with
  | (Raised e, s1) => Out (Raised e) s1 [CallBucketExists bucket_name]
  | (Ok true, s1) => Out (Ok tt) s1 [CallBucketExists bucket_name]
  | (Ok false, s1) =>
      match client_make_bucket w (client self) bucket_name s1 with
      | (r, s2) => Out r s2 [CallBucketExists bucket_name; CallMakeBucket bucket_name]
      end
  end.
Proof.
  unfold_run.
  destruct (client_bucket_exists _ _ _ _) as [[[|]|e] s1]; simpl; try done.
  by destruct (client_make_bucket _ _ _ _).
Qed.

(** C4, as amended: with a storage client that reports a bucket as
    existing once its creation has succeeded, two calls of [create_bucket]
    in succession make at most one creation call: exactly one when the
    first existence check finds the bucket missing, none when both checks
    find it. *)
Theorem create_bucket_twice_creates_at_most_once
    (self : MinioClientWrapper) (bucket_name : string) (s : S) :
  (forall s1 s2,
     client_make_bucket w (client self) bucket_name s1 = (Ok tt, s2) ->
     exists s3, client_bucket_exists w (client self) bucket_name s2 = (Ok true, s3)) ->
  creation_calls bucket_name (calls (create_bucket_twice w self bucket_name s)) <= 1 /\
  (forall s1,
     client_bucket_exists w (client self) bucket_name s = (Ok false, s1) ->
     creation_calls bucket_name (calls (create_bucket_twice w self bucket_name s)) = 1) /\
  (forall s1 s2 s3,
     client_bucket_exists w (client self) bucket_name s = (Ok false, s1) ->
     client_make_bucket w (client self) bucket_name s1 = (Ok tt, s2) ->
     client_bucket_exists w (client self) bucket_name s2 = (Ok true, s3) ->
     create_bucket_twice w self bucket_name s
     = Out (Ok tt) s3 [CallBucketExists bucket_name; CallMakeBucket bucket_name;
                       CallBucketExists bucket_name]) /\
  (forall s1 s2,
     client_bucket_exists w (client self) bucket_name s = (Ok true, s1) ->
     client_bucket_exists w (client self) bucket_name s1 = (Ok true, s2) ->
     create_bucket_twice w self bucket_name s
     = Out (Ok tt) s2 [CallBucketExists bucket_name; CallBucketExists bucket_name] /\
     creation_calls bucket_name (calls (create_bucket_twice w self bucket_name s)) = 0).
Proof.
  intros Hcontract.
  assert (Hmissing : forall s1,
    client_bucket_exists w (client self) bucket_name s = (Ok false, s1) ->
    creation_calls bucket_name (calls (create_bucket_twice w self bucket_name s)) = 1).
  { intros s1 H1. unfold create_bucket_twice, bind.
    rewrite (create_bucket_run self bucket_name s), H1.
    destruct (client_make_bucket w (client self) bucket_name s1) as [[[]|x] s2] eqn:H2.
    - destruct (Hcontract s1 s2 H2) as [s3 H3].
      rewrite (create_bucket_run self bucket_name s2), H3.
      unfold creation_calls. simpl. by rewrite String.eqb_refl.
    - unfold creation_calls. simpl. by rewrite String.eqb_refl. }
  split; [|split; [done|split]].
  - destruct (client_bucket_exists w (client self) bucket_name s) as [[[|]|x] s1] eqn:H1.
    + unfold create_bucket_twice, bind.
      rewrite (create_bucket_run self bucket_name s), H1.
      rewrite (create_bucket_run self bucket_name s1).
      destruct (client_bucket_exists w (client self) bucket_name s1) as [[[|]|x] s2].
      * unfold creation_calls. simpl. lia.
      * destruct (client_make_bucket w (client self) bucket_name s2).
        unfold creation_calls. simpl. rewrite String.eqb_refl. simpl. lia.
      * unfold creation_calls. simpl. lia.
    + rewrite (Hmissing s1); [lia|done].
    + unfold create_bucket_twice, bind.
      rewrite (create_bucket_run self bucket_name s), H1.
      unfold creation_calls. simpl. lia.
  - intros s1 s2 s3 H1 H2 H3. unfold create_bucket_twice, bind.
    rewrite (create_bucket_run self bucket_name s), H1, H2.
    by rewrite (create_bucket_run self bucket_name s2), H3.
  - intros s1 s2 H1 H2.
    assert (Hrun : create_bucket_twice w self bucket_name s
      = Out (Ok tt) s2 [CallBucketExists bucket_name; CallBucketExists bucket_name]).
    { unfold create_bucket_twice, bind.
      rewrite (create_bucket_run self bucket_name s), H1.
      by rewrite (create_bucket_run self bucket_name s1), H2. }
    split; [done|]. by rewrite Hrun.
Qed.

(** C6: a failure raised by the storage client during an operation reaches
    the caller as it is, with the state the client left, after a single
    underlying call -- for [create_bucket] after the existence check alone
    when the check raises, after the check and one creation call when the
    creation raises.  Every operation makes one underlying call, and
    [create_bucket] one or two. *)
Theorem storage_failures_propagate_unchanged
    (self : MinioClientWrapper) (bucket_name object_name file_path : string)
    (prefix : option string) (s : S) (e : exn) :
  (forall s1,
     client_bucket_exists w (client self) bucket_name s = (Raised e, s1) ->
     bucket_exists w self bucket_name s
     = Out (Raised e) s1 [CallBucketExists bucket_name]) /\
  (forall s1,
     client_bucket_exists w (client self) bucket_name s = (Raised e, s1) ->
     create_bucket w self bucket_name s
     = Out (Raised e) s1 [CallBucketExists bucket_name]) /\
  (forall s1 s2,
     client_bucket_exists w (client self) bucket_name s = (Ok false, s1) ->
     client_make_bucket w (client self) bucket_name s1 = (Raised e, s2) ->
     create_bucket w self bucket_name s
     = Out (Raised e) s2 [CallBucketExists bucket_name; CallMakeBucket bucket_name]) /\
  (forall s1,
     client_remove_bucket w (client self) bucket_name s = (Raised e, s1) ->
     delete_bucket w self bucket_name s
     = Out (Raised e) s1 [CallRemoveBucket bucket_name]) /\
  (forall s1,
     client_fput_object w (client self) bucket_name object_name file_path s
     = (Raised e, s1) ->
     upload_file w self bucket_name object_name file_path s
     = Out (Raised e) s1 [CallFputObject bucket_name object_name file_path]) /\
  (forall s1,
     client_fget_object w (client self) bucket_name object_name file_path s
     = (Raised e, s1) ->
     download_file w self bucket_name object_name file_path s
     = Out (Raised e) s1 [CallFgetObject bucket_name object_name file_path]) /\
  (forall s1,
     client_list_objects w (client self) bucket_name prefix s = (Raised e, s1) ->
     list_objects w self bucket_name prefix s
     = Out (Raised e) s1 [CallListObjects bucket_name prefix]) /\
  (forall g s1,
     client_list_objects w (client self) bucket_name prefix s = (Ok g, s1) ->
     stops_with g = Some e ->
     list_objects w self bucket_name prefix s
     = Out (Raised e) s1 [CallListObjects bucket_name prefix]) /\
  (forall s1,
     client_remove_object w (client self) bucket_name object_name s = (Raised e, s1) ->
     delete_object w self bucket_name object_name s
     = Out (Raised e) s1 [CallRemoveObject bucket_name object_name]) /\
  calls (bucket_exists w self bucket_name s) = [CallBucketExists bucket_name] /\
  calls (delete_bucket w self bucket_name s) = [CallRemoveBucket bucket_name] /\
  calls (upload_file w self bucket_name object_name file_path s)
  = [CallFputObject bucket_name object_name file_path] /\
  calls (download_file w self bucket_name object_name file_path s)
  = [CallFgetObject bucket_name object_name file_path] /\
  calls (list_objects w self bucket_name prefix s) = [CallListObjects bucket_name prefix] /\
  calls (delete_object w self bucket_name object_name s)
  = [CallRemoveObject bucket_name object_name] /\
  (calls (create_bucket w self bucket_name s) = [CallBucketExists bucket_name] \/
   calls (create_bucket w self bucket_name s)
   = [CallBucketExists bucket_name; CallMakeBucket bucket_name]).
Proof.
  repeat split.
  - intros s1 H. unfold_run. by rewrite H.
  - intros s1 H. by rewrite create_bucket_run, H.
  - intros s1 s2 H1 H2. by rewrite create_bucket_run, H1, H2.
  - intros s1 H. unfold_run. by rewrite H.
  - intros s1 H. unfold_run. by rewrite H.
  - intros s1 H. unfold_run. by rewrite H.
  - intros s1 H. unfold_run. by rewrite H.
  - intros g s1 H Hg. unfold_run. rewrite H, Hg. by rewrite comprehension_raises.
  - intros s1 H. unfold_run. by rewrite H.
  - unfold_run. by destruct (client_bucket_exists _ _ _ _).
  - unfold_run. by destruct (client_remove_bucket _ _ _ _).
  - unfold_run. by destruct (client_fput_object _ _ _ _ _ _).
  - unfold_run. by destruct (client_fget_object _ _ _ _ _ _).
  - unfold_run. destruct (client_list_objects _ _ _ _ _) as [[g|x] s1]; [|done].
    by destruct (comprehension _ _ _).
  - unfold_run. by destruct (client_remove_object _ _ _ _ _).
  - rewrite create_bucket_run.
    destruct (client_bucket_exists _ _ _ _) as [[[|]|x] s1]; simpl; eauto.
    destruct (client_make_bucket _ _ _ _); eauto.
Qed.

(** C7, as amended: [list_objects] hands the bucket and the prefix to the
    client in a single call and returns the names of the entries the client
    yields, one name per entry and in the order they are yielded, nothing
    reordered, left out or added.  It matches no prefix itself: the result
    is the names of the stored objects that match the prefix when those
    objects are what the client yields. *)
Theorem list_objects_names_of_yielded_entries
    (self : MinioClientWrapper) (bucket_name : string) (prefix : option string) (s : S) :
  calls (list_objects w self bucket_name prefix s) = [CallListObjects bucket_name prefix] /\
  (forall g s1,
     client_list_objects w (client self) bucket_name prefix s = (Ok g, s1) ->
     stops_with g = None ->
     list_objects w self bucket_name prefix s
     = Out (Ok (List.map object_name (yields g))) s1 [CallListObjects bucket_name prefix]) /\
  (forall g s1 names,
     client_list_objects w (client self) bucket_name prefix s = (Ok g, s1) ->
     res (list_objects w self bucket_name prefix s) = Ok names ->
     names = List.map object_name (yields g) /\
     length names = length (yields g) /\
     (forall i x, yields g !! i = Some x -> names !! i = Some (object_name x))) /\
  (forall g s1 stored,
     client_list_objects w (client self) bucket_name prefix s = (Ok g, s1) ->
     stops_with g = None ->
     yields g = List.filter (fun x => has_prefix prefix (object_name x)) stored ->
     res (list_objects w self bucket_name prefix s)
     = Ok (List.filter (has_prefix prefix) (List.map object_name stored))).
Proof.
  assert (Hrun : forall g s1,
    client_list_objects w (client self) bucket_name prefix s = (Ok g, s1) ->
    stops_with g = None ->
    list_objects w self bucket_name prefix s
    = Out (Ok (List.map object_name (yields g))) s1 [CallListObjects bucket_name prefix]).
  { intros g s1 H Hg. unfold_run. rewrite H, Hg. by rewrite comprehension_stops. }
  split; [|split; [done|split]].
  - unfold_run. destruct (client_list_objects _ _ _ _ _) as [[g|x] s1]; [|done].
    by destruct (comprehension _ _ _).
  - intros g s1 names H Hnames.
    assert (names = List.map object_name (yields g)) as ->.
    { revert Hnames. unfold_run. rewrite H. simpl.
      destruct (stops_with g) as [x|].
      - by rewrite comprehension_raises.
      - rewrite comprehension_stops. by intros [= <-]. }
    split; [done|]. split; [by rewrite length_map|].
    intros i x Hi. change (List.map object_name (yields g)) with (object_name <$> yields g).
    by rewrite list_lookup_fmap, Hi.
  - intros g s1 stored H Hg Hy. rewrite (Hrun g s1 H Hg). simpl.
    by rewrite Hy, map_filter_names.
Qed.

(** C10: [create_bucket] calls [make_bucket] only after the existence check
    answered false.  A creation call in its log is on the bucket asked for
    and follows a check that returned false; when the check raises, the
    exception is the result, the check is the only call, and the state is
    the one the check left; when the check answers true nothing else is
    called. *)
Theorem make_bucket_only_after_negative_check
    (self : MinioClientWrapper) (bucket_name : string) (s : S) :
  (forall b,
     In (CallMakeBucket b) (calls (create_bucket w self bucket_name s)) ->
     b = bucket_name /\
     exists s1, client_bucket_exists w (client self) bucket_name s = (Ok false, s1)) /\
  (forall e s1,
     client_bucket_exists w (client self) bucket_name s = (Raised e, s1) ->
     create_bucket w self bucket_name s
     = Out (Raised e) s1 [CallBucketExists bucket_name] /\
     creation_calls bucket_name (calls (create_bucket w self bucket_name s)) = 0) /\
  (forall s1,
     client_bucket_exists w (client self) bucket_name s = (Ok true, s1) ->
     create_bucket w self bucket_name s
     = Out (Ok tt) s1 [CallBucketExists bucket_name]) /\
  (forall s1,
     client_bucket_exists w (client self) bucket_name s = (Ok false, s1) ->
     create_bucket w self bucket_name s
     = Out (client_make_bucket w (client self) bucket_name s1).1
           (client_make_bucket w (client self) bucket_name s1).2
           [CallBucketExists bucket_name; CallMakeBucket bucket_name]).
Proof.
  split; [|split; [|split]].
  - intros b. rewrite create_bucket_run.
    destruct (client_bucket_exists _ _ _ _) as [[[|]|x] s1]; simpl.
    + intros [|[]]; done.
    + destruct (client_make_bucket _ _ _ _). simpl.
      intros [|[[= <-]|[]]]; [done|]. eauto.
    + intros [|[]]; done.
  - intros e s1 H. rewrite create_bucket_run, H. done.
  - intros s1 H. by rewrite create_bucket_run, H.
  - intros s1 H. rewrite create_bucket_run, H.
    by destruct (client_make_bucket _ _ _ _).
Qed.

End Facts.

(** * The properties on the in-memory doubles *)

(** C1 on the cluster scenario: with [secret_name] and [namespace] set and
    no vault name, the client is built from the record the cluster holds
    and the key vault is not consulted. *)
Lemma init_short_circuits_by_priority_on_cluster :
  let o := __init__ (Double.world Double.fixture) None None None
             (Some "minio-secret") (Some "default") None true true
             Double.empty_server in
  built_with (Double.world Double.fixture)
    (PStr "minio.local", PStr "AK", PStr "SK") true true Double.empty_server
    [CallLoadInclusterConfig; CallCoreV1Api;
     CallReadNamespacedSecret (Some "minio-secret") (Some "default")] o /\
  consulted is_keyvault_call (calls o) = false.
Proof.
  intros o.
  destruct (init_short_circuits_by_priority (Double.world Double.fixture)
              None None None (Some "minio-secret") (Some "default") None true true
              Double.empty_server) as (_ & Hcluster & _).
  apply Hcluster; vm_compute; reflexivity.
Defined.

(** C2 on the empty scenario: no argument at all. *)
Lemma exhausted_sources_on_no_arguments :
  __init__ (Double.world Double.fixture) None None None None None None true true
    Double.empty_server
  = Out (Raised config_error) Double.empty_server [] /\
  consulted is_minio_constructor [] = false /\
  exn_cls config_error = ValueError /\
  mentions (exn_msg config_error) "provided arguments" = true /\
  mentions (exn_msg config_error) "Kubernetes secrets" = true /\
  mentions (exn_msg config_error) "Azure Key Vault" = true.
Proof.
  apply (exhausted_sources_raise_configuration_error (Double.world Double.fixture)
           None None None None None None true true Double.empty_server
           none3 Double.empty_server [] none3 Double.empty_server []);
    vm_compute; reflexivity.
Defined.

(** C3, as stated, fails: an interrupt raised while the cluster lookup
    authenticates is not an [Exception]; it leaves the lookup and the
    constructor, and the key vault is never reached. *)
Lemma interrupt_leaves_the_cluster_lookup :
  let w := Double.world Double.interrupted in
  let e := Exc KeyboardInterrupt "" in
  let o := __init__ w None None None (Some "minio-secret") (Some "default")
             (Some "my-keyvault") true true Double.empty_server in
  k8s_raises w (Some "minio-secret") (Some "default") Double.empty_server e
    Double.empty_server [CallLoadInclusterConfig] /\
  _get_k8s_secret w (Some "minio-secret") (Some "default") Double.empty_server
  = Out (Raised e) Double.empty_server [CallLoadInclusterConfig] /\
  _get_k8s_secret w (Some "minio-secret") (Some "default") Double.empty_server
  <> Out (Ok none3) Double.empty_server [CallLoadInclusterConfig] /\
  o = Out (Raised e) Double.empty_server [CallLoadInclusterConfig] /\
  consulted is_keyvault_call (calls o) = false.
Proof.
  intros w e o. split; [|split; [|split; [|split]]].
  - by apply k8s_auth_raises.
  - by vm_compute.
  - by vm_compute.
  - by vm_compute.
  - by vm_compute.
Qed.

(** C3, as amended, outside a cluster: the configuration error of the
    cluster client is swallowed and the client is built from the vault. *)
Lemma lookups_swallow_Exception_outside_cluster :
  let w := Double.world Double.outside_cluster in
  let o := __init__ w None None None (Some "minio-secret") (Some "default")
             (Some "my-keyvault") true true Double.empty_server in
  _get_k8s_secret w (Some "minio-secret") (Some "default") Double.empty_server
  = Out (Ok none3) Double.empty_server [CallLoadInclusterConfig] /\
  o = after [CallLoadInclusterConfig]
        (from_keyvault w none3 (Some "my-keyvault") true true Double.empty_server) /\
  exists rest, calls o = [CallLoadInclusterConfig] ++ CallDefaultAzureCredential :: rest.
Proof.
  intros w o.
  destruct (lookups_swallow_Exception_only w) as (Hcluster & _).
  destruct (Hcluster (Some "minio-secret") (Some "default") Double.empty_server
              (Exc ConfigException "Service host/port is not set.")
              Double.empty_server [CallLoadInclusterConfig]) as (Hlookup & Hinit).
  - by apply k8s_auth_raises.
  - reflexivity.
  - split; [exact Hlookup|].
    destruct (Hinit None None None (Some "my-keyvault") true true) as (Hrun & Hnext).
    + reflexivity.
    + reflexivity.
    + split; [exact Hrun|]. apply Hnext. reflexivity.
Defined.

(** C4, as stated, fails: on a bucket that exists already two calls of
    [create_bucket] make no creation call, not one. *)
Lemma create_bucket_twice_on_existing_bucket :
  let o := create_bucket_twice (Double.world Double.fixture) Double.self "my-bucket"
             Double.server in
  o = Out (Ok tt) Double.server [CallBucketExists "my-bucket"; CallBucketExists "my-bucket"] /\
  creation_calls "my-bucket" (calls o) = 0 /\
  creation_calls "my-bucket" (calls o) <> 1.
Proof. by vm_compute. Qed.

(** The in-memory server reports a bucket once it has created it. *)
Lemma double_created_then_exists fx (c : Minio) (bucket : string) (s1 s2 : Double.Server) :
  client_make_bucket (Double.world fx) c bucket s1 = (Ok tt, s2) ->
  client_bucket_exists (Double.world fx) c bucket s2 = (Ok true, s2).
Proof.
  simpl. unfold Double.answer.
  destruct (Double.outage s1) eqn:Hup; [done|].
  destruct (Double.buckets s1 !! bucket) eqn:Hb; [done|].
  intros [= <-]. simpl. rewrite Hup, lookup_insert_eq.
  by rewrite bool_decide_eq_true_2.
Qed.

(** C4, as amended, on a bucket the server does not hold yet. *)
Lemma create_bucket_twice_on_new_bucket :
  creation_calls "fallback-bucket"
    (calls (create_bucket_twice (Double.world Double.fixture) Double.self
              "fallback-bucket" Double.server)) = 1.
Proof.
  destruct (create_bucket_twice_creates_at_most_once (Double.world Double.fixture)
              Double.self "fallback-bucket" Double.server) as (_ & Hmissing & _).
  - intros s1 s2 Hmade. exists s2. exact (double_created_then_exists _ _ _ s1 s2 Hmade).
  - apply (Hmissing Double.server). reflexivity.
Defined.

(** C5 on two partial sets: an endpoint alone among the arguments, a host
    alone in the cluster record.  Both are dropped, the key-vault lookup
    is made, and the client is built from the record of the vault. *)
Lemma partial_credentials_on_endpoint_alone :
  let w := Double.world Malformed.partial_record in
  built_with w (PStr "vault.minio.local", PStr "VAK", PStr "VSK") true true
    Double.empty_server
    (k8s_sequence (Some "minio-secret") (Some "default")
     ++ keyvault_sequence (Some "my-keyvault"))
    (__init__ w (Some "play.min.io") None None (Some "minio-secret") (Some "default")
       (Some "my-keyvault") true true Double.empty_server).
Proof.
  intros w.
  destruct (partial_credentials_never_used w (Some "play.min.io") None None
              (Some "minio-secret") (Some "default") (Some "my-keyvault") true true
              Double.empty_server) as (_ & _ & _ & _ & Hcluster & _).
  destruct (Hcluster (PStr "cluster.minio.local", PNone, PNone) Double.empty_server
              (k8s_sequence (Some "minio-secret") (Some "default")))
    as (_ & Hpartial); [vm_compute; reflexivity ..|].
  destruct Hpartial as (_ & Hgiven); [reflexivity|].
  destruct Hgiven as (Hvault & _); [reflexivity|].
  destruct (Hvault (PStr "vault.minio.local", PStr "VAK", PStr "VSK")
              Double.empty_server (keyvault_sequence (Some "my-keyvault")))
    as (Hbuilt & _); [vm_compute; reflexivity|].
  apply Hbuilt. reflexivity.
Defined.

(** C6 on a server that is down. *)
Lemma storage_failures_on_outage :
  let e := Double.s3_error "ServiceUnavailable" in
  let s := Double.down e Double.server in
  bucket_exists (Double.world Double.fixture) Double.self "my-bucket" s
  = Out (Raised e) s [CallBucketExists "my-bucket"].
Proof.
  intros e s.
  destruct (storage_failures_propagate_unchanged (Double.world Double.fixture)
              Double.self "my-bucket" "data.csv" "./data.csv" None s e)
    as (Hexists & _).
  apply Hexists. reflexivity.
Defined.

(** C7, as stated, fails: line 64 asks for no recursive listing, and a
    client that lists one level yields for the prefix [lo] the directory
    [logs/]; the result is that name, not the names of the two objects
    that match the prefix. *)
Lemma list_objects_on_one_level_listing :
  let w := OneLevel.world Double.fixture in
  let stored := [Double.file "logs/a.txt"; Double.file "data.csv";
                 Double.file "logs/b.txt"] in
  Double.buckets Double.server !! "my-bucket" = Some stored /\
  List.filter (has_prefix (Some "lo")) (List.map object_name stored)
  = ["logs/a.txt"; "logs/b.txt"] /\
  res (list_objects w Double.self "my-bucket" (Some "lo") Double.server)
  = Ok ["logs/"] /\
  res (list_objects w Double.self "my-bucket" (Some "lo") Double.server)
  <> Ok (List.filter (has_prefix (Some "lo")) (List.map object_name stored)).
Proof. by vm_compute. Qed.

(** C7, as amended, on the same client and the prefix [logs/]: the two
    entries it yields come back by name, in its order. *)
Lemma list_objects_on_directory_prefix :
  list_objects (OneLevel.world Double.fixture) Double.self "my-bucket" (Some "logs/")
    Double.server
  = Out (Ok ["logs/a.txt"; "logs/b.txt"]) Double.server
      [CallListObjects "my-bucket" (Some "logs/")].
Proof.
  destruct (list_objects_names_of_yielded_entries (OneLevel.world Double.fixture)
              Double.self "my-bucket" (Some "logs/") Double.server) as (_ & Hrun & _).
  apply (Hrun {| yields := [Double.file "logs/a.txt"; Double.file "logs/b.txt"];
                 stops_with := None |} Double.server);
    vm_compute; reflexivity.
Defined.

(** C8 on the secret the cluster holds. *)
Lemma secret_payload_on_cluster :
  _get_k8s_secret (Double.world Double.fixture) (Some "minio-secret") (Some "default")
    Double.empty_server
  = Out (Ok (PStr "minio.local", PStr "AK", PStr "SK")) Double.empty_server
      [CallLoadInclusterConfig; CallCoreV1Api;
       CallReadNamespacedSecret (Some "minio-secret") (Some "default")].
Proof.
  destruct (secret_payload_contract (Double.world Double.fixture)) as (Hcluster & _).
  etrans.
  - apply (Hcluster (Some "minio-secret") (Some "default") Double.empty_server
             Double.empty_server Double.empty_server Double.empty_server
             {| data := Some {[ "minio" := "bWluaW8ubG9jYWw=" ]} |}
             {[ "minio" := "bWluaW8ubG9jYWw=" ]} "bWluaW8ubG9jYWw="
             (String.list_byte_of_string "cluster-record") "cluster-record"
             (<["host" := PStr "minio.local"]>
                (<["id" := PStr "AK"]> (<["secret" := PStr "SK"]> ∅))));
      vm_compute; reflexivity.
  - vm_compute; reflexivity.
Defined.

(** C9 on a secret name without a namespace: the cluster is not called. *)
Lemma lookups_need_their_names_on_missing_namespace :
  let o := __init__ (Double.world Double.fixture) None None None
             (Some "minio-secret") None (Some "my-keyvault") true true
             Double.empty_server in
  consulted is_k8s_call (calls o) = false /\
  o = __init__ (Double.world Double.fixture) None None None None None
        (Some "my-keyvault") true true Double.empty_server.
Proof.
  intros o.
  destruct (lookups_need_their_names (Double.world Double.fixture) None None None
              (Some "minio-secret") None (Some "my-keyvault") true true
              Double.empty_server) as (Hskip & _).
  apply Hskip. reflexivity.
Defined.

(** C10 on a server that is down: the check raises, nothing is created. *)
Lemma make_bucket_not_called_on_outage :
  let e := Double.s3_error "ServiceUnavailable" in
  let s := Double.down e Double.empty_server in
  create_bucket (Double.world Double.fixture) Double.self "my-bucket" s
  = Out (Raised e) s [CallBucketExists "my-bucket"] /\
  creation_calls "my-bucket"
    (calls (create_bucket (Double.world Double.fixture) Double.self "my-bucket" s)) = 0.
Proof.
  intros e s.
  destruct (make_bucket_only_after_negative_check (Double.world Double.fixture)
              Double.self "my-bucket" s) as (_ & Hraise & _).
  apply Hraise. reflexivity.
Defined.

(** * Further properties *)

Section MoreFacts.
Context {S : Type} (w : World S).
Implicit Types (s : S) (t : triple) (e : exn) (log : list call).

(** ** The log of [__init__] *)

Lemma bind_calls {A B} (m : M S A) (k : A -> M S B) s :
  calls (bind m k s)
  = match res (m s) with
    | Ok a => calls (m s) ++ calls (k a (world (m s)))
    | Raised _ => calls (m s)
    end.
Proof.
  unfold bind. destruct (m s) as [[a|x] s1 c1]; simpl; [|done].
  by destruct (k a s1).
Qed.

Lemma k8s_log_prefix secret_name namespace s :
  calls (_get_k8s_secret w secret_name namespace s)
    `prefix_of` k8s_sequence secret_name namespace.
Proof. unfold_run. unfold k8s_sequence. cases; simpl; by eexists. Qed.

Lemma keyvault_log_prefix keyvault_name s :
  calls (_get_azure_keyvault_secret w keyvault_name s)
    `prefix_of` keyvault_sequence keyvault_name.
Proof. unfold_run. unfold keyvault_sequence. cases; simpl; by eexists. Qed.

Lemma resolve_k8s_log_prefix t secret_name namespace s :
  calls (resolve_k8s w t secret_name namespace s)
    `prefix_of` k8s_sequence secret_name namespace.
Proof.
  unfold resolve_k8s. cases; try apply k8s_log_prefix; by eexists.
Qed.

Lemma resolve_keyvault_log_prefix t keyvault_name s :
  calls (resolve_keyvault w t keyvault_name s)
    `prefix_of` keyvault_sequence keyvault_name.
Proof.
  unfold resolve_keyvault. cases; try apply keyvault_log_prefix; by eexists.
Qed.

Lemma build_log_shape t secure cert_check s :
  calls (build w t secure cert_check s) = [] \/
  exists host id secret,
    calls (build w t secure cert_check s) = [CallMinio host id secret secure cert_check].
Proof.
  destruct (incomplete t) eqn:Ht.
  - left. by rewrite build_incomplete.
  - right. destruct (build_complete w t secure cert_check s Ht) as (-> & _). eauto.
Qed.

(** X1: whatever the outside world answers, [__init__] calls the cluster
    API, then the key-vault API, then the constructor of the storage
    client: each call at most once, the lookups only with the names it was
    given, and nothing else. *)
Theorem init_calls_each_api_once_in_order
    (endpoint access_key secret_key secret_name namespace keyvault_name : option string)
    (secure cert_check : bool) (s : S) :
  exists cluster vault constructor,
    calls (__init__ w endpoint access_key secret_key secret_name namespace
             keyvault_name secure cert_check s)
    = cluster ++ vault ++ constructor /\
    cluster `prefix_of` k8s_sequence secret_name namespace /\
    vault `prefix_of` keyvault_sequence keyvault_name /\
    (constructor = [] \/
     exists host id secret,
       constructor = [CallMinio host id secret secure cert_check]).
Proof.
  rewrite init_stages.
  pose proof (resolve_k8s_log_prefix (of_arg endpoint, of_arg access_key, of_arg secret_key)
                secret_name namespace s) as Hk.
  destruct (resolve_k8s _ _ _ _ _) as [[t1|x] s1 c1]; simpl in *.
  - rewrite from_keyvault_stages.
    pose proof (resolve_keyvault_log_prefix t1 keyvault_name s1) as Hv.
    destruct (resolve_keyvault _ _ _ _) as [[t2|x] s2 c2]; simpl in *.
    + exists c1, c2, (calls (build w t2 secure cert_check s2)).
      repeat split; try done. apply build_log_shape.
    + exists c1, c2, []. rewrite app_nil_r. repeat split; try done. by left.
  - exists c1, [], []. rewrite !app_nil_r. repeat split; try done.
    + by eexists.
    + by left.
Qed.

(** ** What [__init__] returns *)

Lemma complete_client_of t secure cert_check :
  complete (triple_of (client_of t secure cert_check)) = complete t.
Proof. by destruct t as [[? ?] ?]. Qed.

(** X2: a wrapper that [__init__] returns holds a client built from a
    complete triple, with [secure] and [cert_check] as they were passed;
    the constructor was called exactly once, as the last call. *)
Theorem init_returns_complete_client
    (endpoint access_key secret_key secret_name namespace keyvault_name : option string)
    (secure cert_check : bool) (s : S) (self : MinioClientWrapper) :
  res (__init__ w endpoint access_key secret_key secret_name namespace
         keyvault_name secure cert_check s) = Ok self ->
  complete (triple_of (client self)) = true /\
  m_secure (client self) = secure /\
  m_cert_check (client self) = cert_check /\
  exists lookups,
    calls (__init__ w endpoint access_key secret_key secret_name namespace
             keyvault_name secure cert_check s)
    = lookups ++ [CallMinio (m_endpoint (client self)) (m_access_key (client self))
                    (m_secret_key (client self)) secure cert_check] /\
    consulted is_minio_constructor lookups = false.
Proof.
  rewrite init_stages.
  pose proof (resolve_k8s_calls w (of_arg endpoint, of_arg access_key, of_arg secret_key)
                secret_name namespace s) as Hk.
  destruct (resolve_k8s _ _ _ _ _) as [[t1|x] s1 c1]; simpl in *; [|done].
  rewrite from_keyvault_stages.
  pose proof (resolve_keyvault_calls w t1 keyvault_name s1) as Hv.
  destruct (resolve_keyvault _ _ _ _) as [[t2|x] s2 c2]; simpl in *; [|done].
  destruct (incomplete t2) eqn:Ht2.
  - by rewrite build_incomplete.
  - destruct (build_complete w t2 secure cert_check s2 Ht2) as (Hc & _ & Hr).
    rewrite Hr, Hc.
    destruct ((minio_init w (client_of t2 secure cert_check) s2).1); [|done].
    intros [= <-]. simpl. split.
    { rewrite complete_client_of. by apply complete_true. }
    do 2 (split; [done|]).
    exists (c1 ++ c2). split.
    + by rewrite !app_assoc.
    + rewrite consulted_app.
      by rewrite (not_consulted _ _ _ k8s_not_constructor Hk),
                 (not_consulted _ _ _ keyvault_not_constructor Hv).
Qed.

Lemma resolve_k8s_raises t secret_name namespace s e s1 c1 :
  resolve_k8s w t secret_name namespace s = Out (Raised e) s1 c1 ->
  is_Exception e = false /\ k8s_raises w secret_name namespace s e s1 c1.
Proof.
  unfold resolve_k8s. destruct (incomplete t); [|done].
  destruct (truthy _ && truthy _); [|done].
  intros H. split.
  - apply (k8s_lookup_raises_inv w secret_name namespace s). by rewrite H.
  - apply k8s_raises_run. unfold _get_k8s_secret, try_except_Exception, ret in H.
    destruct (_get_k8s_secret_try w secret_name namespace s) as [[a|x] s' c'];
      [done|].
    destruct (is_Exception x); [done|]. by injection H as -> -> ->.
Qed.

Lemma resolve_keyvault_raises t keyvault_name s e s1 c1 :
  resolve_keyvault w t keyvault_name s = Out (Raised e) s1 c1 ->
  is_Exception e = false /\ keyvault_raises w keyvault_name s e s1 c1.
Proof.
  unfold resolve_keyvault. destruct (incomplete t); [|done].
  destruct (truthy _); [|done].
  intros H. split.
  - apply (keyvault_lookup_raises_inv w keyvault_name s). by rewrite H.
  - apply keyvault_raises_run.
    unfold _get_azure_keyvault_secret, try_except_Exception, ret in H.
    destruct (_get_azure_keyvault_secret_try w keyvault_name s) as [[a|x] s' c'];
      [done|].
    destruct (is_Exception x); [done|]. by injection H as -> -> ->.
Qed.

(** X3: the ways [__init__] can fail.  When the run raises [e], either
    both resolution stages returned, the triple they left is incomplete,
    and the run is the configuration error right after their calls, with
    no constructor call; or both stages returned, the triple they left is
    complete, the run made its one constructor call with that triple, and
    [e] is what that call raised; or [e] is not an instance of [Exception],
    was raised at a stage of the cluster lookup or of the key-vault lookup
    of this run, and the run ends there, with no constructor call. *)
Theorem init_failure_modes
    (endpoint access_key secret_key secret_name namespace keyvault_name : option string)
    (secure cert_check : bool) (s : S) (e : exn) :
  let t0 := (of_arg endpoint, of_arg access_key, of_arg secret_key) in
  let o := __init__ w endpoint access_key secret_key secret_name namespace
             keyvault_name secure cert_check s in
  res o = Raised e ->
  (e = config_error /\
   consulted is_minio_constructor (calls o) = false /\
   exists t1 s1 c1 t2 s2 c2,
     resolve_k8s w t0 secret_name namespace s = Out (Ok t1) s1 c1 /\
     resolve_keyvault w t1 keyvault_name s1 = Out (Ok t2) s2 c2 /\
     complete t2 = false /\
     o = Out (Raised config_error) s2 (c1 ++ c2)) \/
  (exists t1 s1 c1 t2 s2 c2,
     resolve_k8s w t0 secret_name namespace s = Out (Ok t1) s1 c1 /\
     resolve_keyvault w t1 keyvault_name s1 = Out (Ok t2) s2 c2 /\
     complete t2 = true /\
     built_with w t2 secure cert_check s2 (c1 ++ c2) o /\
     consulted is_minio_constructor (c1 ++ c2) = false /\
     (minio_init w (client_of t2 secure cert_check) s2).1 = Raised e) \/
  (is_Exception e = false /\
   consulted is_minio_constructor (calls o) = false /\
   ((exists s1 c1,
       k8s_raises w secret_name namespace s e s1 c1 /\
       o = Out (Raised e) s1 c1) \/
    (exists t1 s1 c1 s2 c2,
       resolve_k8s w t0 secret_name namespace s = Out (Ok t1) s1 c1 /\
       keyvault_raises w keyvault_name s1 e s2 c2 /\
       o = Out (Raised e) s2 (c1 ++ c2)))).
Proof.
  intros t0 o. subst o t0. rewrite init_stages.
  pose proof (resolve_k8s_calls w (of_arg endpoint, of_arg access_key, of_arg secret_key)
                secret_name namespace s) as Hk.
  destruct (resolve_k8s _ _ _ _ _) as [[t1|x] s1 c1] eqn:Ek; simpl in *.
  - rewrite from_keyvault_stages.
    pose proof (resolve_keyvault_calls w t1 keyvault_name s1) as Hv.
    destruct (resolve_keyvault _ _ _ _) as [[t2|x] s2 c2] eqn:Ev; simpl in *.
    + assert (Hlookups : consulted is_minio_constructor (c1 ++ c2) = false).
      { rewrite consulted_app.
        by rewrite (not_consulted _ _ _ k8s_not_constructor Hk),
                   (not_consulted _ _ _ keyvault_not_constructor Hv). }
      destruct (incomplete t2) eqn:Ht2.
      * rewrite build_incomplete by done. simpl. intros [= <-]. left.
        rewrite app_nil_r. split; [done|]. split; [done|].
        exists t1, s1, c1, t2, s2, c2. repeat split; try done.
        -- by apply complete_false.
        -- unfold after; simpl. by rewrite !app_nil_r.
      * pose proof (build_complete w t2 secure cert_check s2 Ht2) as Hb.
        intros He. right; left. exists t1, s1, c1, t2, s2, c2.
        split; [done|]. split; [done|]. split; [by apply complete_true|].
        split.
        { rewrite after_after. rewrite <- (app_nil_r (c1 ++ c2)) at 1.
          by apply built_with_after. }
        split; [done|].
        destruct Hb as (_ & _ & Hr). revert He. rewrite Hr.
        destruct ((minio_init w (client_of t2 secure cert_check) s2).1);
          [done | by intros [= ->]].
    + intros [= <-]. apply resolve_keyvault_raises in Ev as [Hx Hr].
      right; right. split; [done|]. split.
      * rewrite consulted_app.
        by rewrite (not_consulted _ _ _ k8s_not_constructor Hk),
                   (not_consulted _ _ _ keyvault_not_constructor Hv).
      * right. by exists t1, s1, c1, s2, c2.
  - intros [= <-]. apply resolve_k8s_raises in Ek as [Hx Hr].
    right; right. split; [done|]. split.
    + by rewrite (not_consulted _ _ _ k8s_not_constructor Hk).
    + left. by exists s1, c1.
Qed.

(** ** Secrets without a usable payload *)

Lemma credentials_of_not_a_record v :
  not_a_record v = true ->
  exists e, credentials_of v = Raised e /\ is_Exception e = true.
Proof. destruct v; try done; intros _; by eexists. Qed.

(** X4: a cluster secret that can be read but carries no usable payload --
    it has no data, its data has no [minio] entry, or the entry decodes to
    JSON that is not an object -- makes the cluster lookup return the empty
    triple, after the three cluster calls and without raising. *)
Theorem cluster_lookup_on_malformed_secret
    (secret_name namespace : option string) (s s1 s2 s3 : S) (secret : V1Secret) :
  load_incluster_config w s = (Ok tt, s1) ->
  CoreV1Api w s1 = (Ok tt, s2) ->
  read_namespaced_secret w secret_name namespace s2 = (Ok secret, s3) ->
  (data secret = None \/
   (exists entries, data secret = Some entries /\ entries !! "minio" = None) \/
   (exists entries payload raw text v,
      data secret = Some entries /\ entries !! "minio" = Some payload /\
      b64decode w payload = Ok raw /\ decode_utf8 w raw = Ok text /\
      json_loads w text = Ok v /\ not_a_record v = true)) ->
  _get_k8s_secret w secret_name namespace s
  = Out (Ok none3) s3 (k8s_sequence secret_name namespace).
Proof.
  intros H1 H2 H3 Hbad.
  assert (exists e, payload_raises w secret e /\ is_Exception e = true) as (e & Hp & He).
  { destruct Hbad as [Hd|[(entries & Hd & Hm)|(entries & payload & raw & text & v
                                               & Hd & Hm & Hb & Hu & Hj & Hv)]].
    - eexists. split; [apply missing_payload_key; unfold subscript; by rewrite Hd|done].
    - eexists. split;
        [apply missing_payload_key; unfold subscript; by rewrite Hd, Hm|done].
    - destruct (credentials_of_not_a_record v Hv) as (e & Hc & He).
      exists e. split; [|done].
      eapply fields_raise; eauto. unfold subscript. by rewrite Hd, Hm. }
  eapply try_swallows; [|exact He].
  apply k8s_raises_run. by eapply k8s_payload_raises.
Qed.

(** X5: a key-vault secret that can be fetched but has no value, or whose
    value parses to JSON that is not an object, makes the key-vault lookup
    return the empty triple, after the three key-vault calls and without
    raising. *)
Theorem keyvault_lookup_on_malformed_secret
    (keyvault_name : option string) (s s1 s2 s3 : S) (secret : KeyVaultSecret) :
  DefaultAzureCredential w s = (Ok tt, s1) ->
  SecretClient w (vault_url_of keyvault_name) s1 = (Ok tt, s2) ->
  get_secret w (vault_url_of keyvault_name) "minio-credentials" s2 = (Ok secret, s3) ->
  (value secret = None \/
   (exists text v,
      value secret = Some text /\ json_loads w text = Ok v /\ not_a_record v = true)) ->
  _get_azure_keyvault_secret w keyvault_name s
  = Out (Ok none3) s3 (keyvault_sequence keyvault_name).
Proof.
  intros H1 H2 H3 Hbad.
  destruct Hbad as [Hv|(text & v & Hv & Hj & Hn)].
  - eapply try_swallows; [|shelve].
    apply keyvault_raises_run. eapply keyvault_json_raises; eauto.
    unfold json_loads_value. by rewrite Hv.
    Unshelve. done.
  - destruct (credentials_of_not_a_record v Hn) as (e & Hc & He).
    eapply try_swallows; [|exact He].
    apply keyvault_raises_run. eapply keyvault_fields_raise; eauto.
    unfold json_loads_value. by rewrite Hv.
Qed.

(** ** Repeated bucket creation *)

Lemma create_bucket_times_succ self bucket_name n s :
  create_bucket_times w self bucket_name (Datatypes.S n) s
  = match create_bucket w self bucket_name s with
    | Out (Ok _) s1 c1 => after c1 (create_bucket_times w self bucket_name n s1)
    | Out (Raised e) s1 c1 => Out (Raised e) s1 c1
    end.
Proof.
  simpl. unfold bind, after.
  destruct (create_bucket w self bucket_name s) as [[[]|x] s1 c1]; [|done].
  by destruct (create_bucket_times w self bucket_name n s1).
Qed.

Lemma after_calls {A} log (o : out S A) : calls (after log o) = log ++ calls o.
Proof. done. Qed.

(** Once the bucket is reported, repeated calls create nothing. *)
Lemma create_bucket_times_on_existing self bucket_name n :
  keeps_buckets w (client self) bucket_name ->
  forall s s1,
    client_bucket_exists w (client self) bucket_name s = (Ok true, s1) ->
    creation_calls bucket_name (calls (create_bucket_times w self bucket_name n s)) = 0.
Proof.
  intros [_ Hstable]. induction n as [|n IH]; intros s s1 H1; [done|].
  rewrite create_bucket_times_succ, create_bucket_run, H1.
  destruct (Hstable s s1 H1) as [s2 H2].
  rewrite after_calls, creation_calls_app.
  by rewrite (IH s1 s2 H2).
Qed.

(** X7: with a storage client that reports a bucket once it has created
    it and goes on reporting it, any number of [create_bucket] calls in
    succession on one name make at most one creation call; they make
    exactly one when there is at least one call and the first existence
    check finds the bucket missing. *)
Theorem create_bucket_times_creates_at_most_once
    (self : MinioClientWrapper) (bucket_name : string) (n : nat) (s : S) :
  keeps_buckets w (client self) bucket_name ->
  creation_calls bucket_name (calls (create_bucket_times w self bucket_name n s)) <= 1 /\
  (forall s1,
     1 <= n ->
     client_bucket_exists w (client self) bucket_name s = (Ok false, s1) ->
     creation_calls bucket_name (calls (create_bucket_times w self bucket_name n s)) = 1).
Proof.
  intros Hkeeps.
  assert (Hmissing : forall m s1,
    client_bucket_exists w (client self) bucket_name s = (Ok false, s1) ->
    creation_calls bucket_name
      (calls (create_bucket_times w self bucket_name (Datatypes.S m) s)) = 1).
  { intros m s1 H1. rewrite create_bucket_times_succ, create_bucket_run, H1.
    destruct (client_make_bucket w (client self) bucket_name s1) as [[[]|x] s2] eqn:H2.
    - destruct Hkeeps as [Hcreated Hstable].
      destruct (Hcreated s1 s2 H2) as [s3 H3].
      rewrite after_calls, creation_calls_app.
      rewrite (create_bucket_times_on_existing self bucket_name m
                 (conj Hcreated Hstable) s2 s3 H3).
      unfold creation_calls. simpl. by rewrite String.eqb_refl.
    - unfold creation_calls. simpl. by rewrite String.eqb_refl. }
  split.
  - destruct n as [|m]; [unfold creation_calls; simpl; lia|].
    destruct (client_bucket_exists w (client self) bucket_name s) as [[[|]|x] s1] eqn:H1.
    + rewrite (create_bucket_times_on_existing self bucket_name _ Hkeeps s s1 H1). lia.
    + rewrite (Hmissing m s1); [lia|done].
    + rewrite create_bucket_times_succ, create_bucket_run, H1.
      unfold creation_calls. simpl. lia.
  - intros s1 Hn H1. destruct n as [|m]; [lia|]. by apply (Hmissing m s1).
Qed.

(** X6: with such a storage client, once [create_bucket] has returned the
    bucket exists: an existence check made next answers true. *)
Theorem create_bucket_establishes_bucket
    (self : MinioClientWrapper) (bucket_name : string) (s : S) :
  keeps_buckets w (client self) bucket_name ->
  res (create_bucket w self bucket_name s) = Ok tt ->
  exists s',
    bucket_exists w self bucket_name (world (create_bucket w self bucket_name s))
    = Out (Ok true) s' [CallBucketExists bucket_name].
Proof.
  intros [Hcreated Hstable]. rewrite create_bucket_run.
  destruct (client_bucket_exists w (client self) bucket_name s) as [[[|]|x] s1] eqn:H1;
    simpl; [| |done].
  - intros _. destruct (Hstable s s1 H1) as [s2 H2]. exists s2.
    unfold bucket_exists, extern. by rewrite H2.
  - destruct (client_make_bucket w (client self) bucket_name s1) as [[[]|x] s2] eqn:H2;
      simpl; [|done].
    intros _. destruct (Hcreated s1 s2 H2) as [s3 H3]. exists s3.
    unfold bucket_exists, extern. by rewrite H3.
Qed.

(** ** The example script *)

Lemma init_calls_kinds endpoint access_key secret_key secret_name namespace
    keyvault_name secure cert_check s :
  Forall (fun c => is_k8s_call c || is_keyvault_call c || is_minio_constructor c = true)
    (calls (__init__ w endpoint access_key secret_key secret_name namespace
              keyvault_name secure cert_check s)).
Proof.
  rewrite init_stages.
  pose proof (resolve_k8s_calls w (of_arg endpoint, of_arg access_key, of_arg secret_key)
                secret_name namespace s) as Hk.
  assert (Hk' : forall log, Forall (fun c => is_k8s_call c = true) log ->
    Forall (fun c => is_k8s_call c || is_keyvault_call c || is_minio_constructor c = true)
      log).
  { intros log H. eapply Forall_impl; [exact H|]. by intros c ->. }
  assert (Hv' : forall log, Forall (fun c => is_keyvault_call c = true) log ->
    Forall (fun c => is_k8s_call c || is_keyvault_call c || is_minio_constructor c = true)
      log).
  { intros log H. eapply Forall_impl; [exact H|]. intros c ->. by rewrite orb_true_r. }
  destruct (resolve_k8s _ _ _ _ _) as [[t1|x] s1 c1]; simpl in *; [|by apply Hk'].
  rewrite from_keyvault_stages.
  pose proof (resolve_keyvault_calls w t1 keyvault_name s1) as Hv.
  destruct (resolve_keyvault _ _ _ _) as [[t2|x] s2 c2]; simpl in *.
  - rewrite !Forall_app. split; [by apply Hk'|]. split; [by apply Hv'|].
    destruct (build_log_shape t2 secure cert_check s2)
      as [->|(host & id & secret & ->)]; by repeat constructor.
  - rewrite Forall_app. split; [by apply Hk' | by apply Hv'].
Qed.

(** The calls of one scenario of the script: those of the construction,
    then storage calls. *)
Lemma scenario_calls (construct : M S MinioClientWrapper)
    (bucket_name object_name file_path : string) s :
  exists storage,
    calls ((self <- construct ;;
            _ <- create_bucket w self bucket_name ;;
            _ <- upload_file w self bucket_name object_name file_path ;;
            list_objects w self bucket_name None) s)
    = calls (construct s) ++ storage /\
    Forall (fun c => is_storage_call c = true) storage.
Proof.
  rewrite bind_calls. destruct (res (construct s)) as [self|x].
  - eexists. split; [done|]. unfold_run. cases; repeat constructor.
  - exists []. by rewrite app_nil_r.
Qed.

Lemma storage_not_k8s c : is_storage_call c = true -> is_k8s_call c = false.
Proof. by destruct c. Qed.

Lemma storage_not_keyvault c : is_storage_call c = true -> is_keyvault_call c = false.
Proof. by destruct c. Qed.

Lemma storage_not_constructor c :
  is_storage_call c = true -> is_minio_constructor c = false.
Proof. by destruct c. Qed.

Lemma init_skips_k8s endpoint access_key secret_key secret_name namespace
    keyvault_name secure cert_check s :
  given secret_name && given namespace = false ->
  consulted is_k8s_call
    (calls (__init__ w endpoint access_key secret_key secret_name namespace
              keyvault_name secure cert_check s)) = false.
Proof.
  intros Hg. rewrite init_stages.
  destruct (incomplete (of_arg endpoint, of_arg access_key, of_arg secret_key)) eqn:Ht0;
    [rewrite resolve_k8s_skipped by done | rewrite resolve_k8s_kept by done];
    simpl; apply from_keyvault_no_k8s.
Qed.

Lemma init_skips_keyvault endpoint access_key secret_key secret_name namespace
    keyvault_name secure cert_check s :
  given keyvault_name = false ->
  consulted is_keyvault_call
    (calls (__init__ w endpoint access_key secret_key secret_name namespace
              keyvault_name secure cert_check s)) = false.
Proof.
  intros Hg. rewrite init_stages.
  pose proof (resolve_k8s_calls w (of_arg endpoint, of_arg access_key, of_arg secret_key)
                secret_name namespace s) as Hall.
  destruct (resolve_k8s _ _ _ _ _) as [[t1|x] s1 c1]; simpl in *.
  - rewrite consulted_app, (not_consulted _ _ _ k8s_not_keyvault Hall). simpl.
    rewrite from_keyvault_stages.
    destruct (incomplete t1) eqn:Ht1;
      [rewrite resolve_keyvault_skipped by done | rewrite resolve_keyvault_kept by done];
      simpl; first [done | apply build_log].
  - apply (not_consulted _ _ _ k8s_not_keyvault Hall).
Qed.

Lemma in_storage_not_constructor log c :
  Forall (fun c => is_storage_call c = true) log -> In c log ->
  is_minio_constructor c = false.
Proof.
  intros Hall Hin. apply storage_not_constructor.
  rewrite Forall_forall in Hall. apply Hall. by apply list_elem_of_In.
Qed.

(** The flags of a constructor call in the log of a scenario. *)
Lemma scenario_flags endpoint access_key secret_key secret_name namespace
    keyvault_name secure cert_check bucket_name object_name file_path s
    host id secret sec cc :
  In (CallMinio host id secret sec cc)
     (calls ((self <- __init__ w endpoint access_key secret_key secret_name namespace
                        keyvault_name secure cert_check ;;
              _ <- create_bucket w self bucket_name ;;
              _ <- upload_file w self bucket_name object_name file_path ;;
              list_objects w self bucket_name None) s)) ->
  sec = secure /\ cc = cert_check.
Proof.
  destruct (scenario_calls (__init__ w endpoint access_key secret_key secret_name
                              namespace keyvault_name secure cert_check)
              bucket_name object_name file_path s) as (storage & -> & Hst).
  rewrite in_app_iff. intros [Hin|Hin].
  - apply init_constructor_call in Hin as (? & ? & ? & ? & ? & ? & _ & _ & _ & Hc);
      [|done].
    by injection Hc as _ _ _ -> ->.
  - by pose proof (in_storage_not_constructor _ _ Hst Hin).
Qed.

Lemma scenario_consulted (p : call -> bool) (construct : M S MinioClientWrapper)
    (bucket_name object_name file_path : string) s :
  (forall c, is_storage_call c = true -> p c = false) ->
  consulted p (calls (construct s)) = false ->
  consulted p
    (calls ((self <- construct ;;
             _ <- create_bucket w self bucket_name ;;
             _ <- upload_file w self bucket_name object_name file_path ;;
             list_objects w self bucket_name None) s)) = false.
Proof.
  intros Hp Hc.
  destruct (scenario_calls construct bucket_name object_name file_path s)
    as (storage & -> & Hst).
  by rewrite consulted_app, Hc, (not_consulted _ _ _ Hp Hst).
Qed.

(** X8: each scenario of the example script consults only the sources its
    arguments name, whatever the outside world answers: the first neither
    the cluster nor the key vault, the third not the key vault, the fourth
    not the cluster; and every client it builds gets the [secure] and
    [cert_check] flags written in the script. *)
Theorem script_scenarios_use_named_sources (s : S) :
  consulted is_k8s_call (calls (main_direct w s)) = false /\
  consulted is_keyvault_call (calls (main_direct w s)) = false /\
  consulted is_keyvault_call (calls (main_k8s w s)) = false /\
  consulted is_k8s_call (calls (main_azure w s)) = false /\
  (forall host id secret sec cc,
     In (CallMinio host id secret sec cc) (calls (main_direct w s)) ->
     sec = true /\ cc = true) /\
  (forall host id secret sec cc,
     In (CallMinio host id secret sec cc) (calls (main_fallback w s)) ->
     sec = true /\ cc = true) /\
  (forall host id secret sec cc,
     In (CallMinio host id secret sec cc) (calls (main_k8s w s)) ->
     sec = true /\ cc = false) /\
  (forall host id secret sec cc,
     In (CallMinio host id secret sec cc) (calls (main_azure w s)) ->
     sec = false /\ cc = true).
Proof.
  split; [|split; [|split; [|split; [|split; [|split; [|split]]]]]];
    try (intros host id secret sec cc Hin; by apply scenario_flags in Hin).
  - apply scenario_consulted; [apply storage_not_k8s|]. by apply init_skips_k8s.
  - apply scenario_consulted; [apply storage_not_keyvault|]. by apply init_skips_keyvault.
  - apply scenario_consulted; [apply storage_not_keyvault|]. by apply init_skips_keyvault.
  - apply scenario_consulted; [apply storage_not_k8s|]. by apply init_skips_k8s.
Qed.

(** What [then_print] keeps of a property of the calls. *)
Lemma then_print_calls (P : call -> Prop) (before : script_run) (m : M S (list string)) :
  Forall P (calls (run before)) ->
  (forall s, Forall P (calls (m s))) ->
  Forall P (calls (run (then_print before m))).
Proof.
  intros Hb Hm. unfold then_print.
  destruct (run before) as [[u|x] s1 c1] eqn:Eb; [|by rewrite Eb].
  specialize (Hm s1). simpl in Hb.
  destruct (m s1) as [[names|x] s2 c2]; simpl in *; by apply Forall_app.
Qed.

(** How many listings are printed after [k] scenarios were started. *)
Lemma then_print_printed (k : nat) (before : script_run) (m : M S (list string)) :
  match res (run before) with
  | Ok _ => length (printed before) = k
  | Raised _ => length (printed before) < k
  end ->
  match res (run (then_print before m)) with
  | Ok _ => length (printed (then_print before m)) = Datatypes.S k
  | Raised _ => length (printed (then_print before m)) < Datatypes.S k
  end.
Proof.
  unfold then_print.
  destruct (run before) as [[u|x] s1 c1] eqn:Eb; simpl.
  - intros Hk. destruct (m s1) as [[names|x] s2 c2]; simpl.
    + rewrite length_app. simpl. lia.
    + lia.
  - rewrite Eb. simpl. lia.
Qed.

Lemma scenario_kinds (construct : M S MinioClientWrapper)
    (bucket_name object_name file_path : string) s :
  Forall (fun c => is_k8s_call c || is_keyvault_call c || is_minio_constructor c = true)
    (calls (construct s)) ->
  Forall (fun c => is_removal c = false)
    (calls ((self <- construct ;;
             _ <- create_bucket w self bucket_name ;;
             _ <- upload_file w self bucket_name object_name file_path ;;
             list_objects w self bucket_name None) s)).
Proof.
  intros Hc.
  destruct (scenario_calls construct bucket_name object_name file_path s)
    as (storage & -> & Hst).
  apply Forall_app. split.
  - eapply Forall_impl; [exact Hc|]. intros c. by destruct c.
  - eapply Forall_impl; [exact Hst|]. intros c. by destruct c.
Qed.

(** X10: from start to end, and whatever the outside world answers, the
    example script removes nothing: its log holds no [remove_object] and
    no [remove_bucket] call. *)
Theorem script_removes_nothing (s : S) :
  consulted is_removal (calls (run (main w s))) = false.
Proof.
  assert (Hall : Forall (fun c => is_removal c = false) (calls (run (main w s)))).
  { unfold main.
    repeat (apply then_print_calls;
            [|intros s'; apply scenario_kinds, init_calls_kinds]).
    constructor. }
  induction Hall as [|c log Hc _ IH]; [done|]. simpl. by rewrite Hc.
Qed.

Lemma init_on_failed_lookups secret_name namespace keyvault_name secure cert_check
    s e2 s2 c2 e3 s3 c3 :
  given secret_name && given namespace = true ->
  given keyvault_name = true ->
  k8s_raises w secret_name namespace s e2 s2 c2 ->
  is_Exception e2 = true ->
  keyvault_raises w keyvault_name s2 e3 s3 c3 ->
  is_Exception e3 = true ->
  __init__ w None None None secret_name namespace keyvault_name secure cert_check s
  = Out (Raised config_error) s3 (c2 ++ c3).
Proof.
  intros Hg Hkv Hr2 He2 Hr3 He3.
  apply k8s_raises_run in Hr2. apply keyvault_raises_run in Hr3.
  rewrite init_stages, resolve_k8s_lookup by done.
  unfold _get_k8s_secret. rewrite (try_swallows _ none3 s e2 s2 c2 Hr2 He2).
  rewrite from_keyvault_stages, resolve_keyvault_lookup by done.
  unfold _get_azure_keyvault_secret.
  rewrite (try_swallows _ none3 s2 e3 s3 c3 Hr3 He3).
  rewrite build_incomplete by done. unfold after; simpl. by rewrite app_nil_r.
Qed.

(** X9: the example script stops at the first exception.  It prints at
    most four listings, and four exactly when it ends without an
    exception.  When the first scenario raises nothing is printed; when the
    first scenario succeeds and then both lookups of the second fail with
    an [Exception], the script has printed the first listing alone and
    ends with the configuration error, right after the failed lookups. *)
Theorem script_stops_at_first_exception (s : S) :
  length (printed (main w s)) <= 4 /\
  (length (printed (main w s)) = 4 <-> res (run (main w s)) = Ok tt) /\
  (forall e s1 c1,
     main_direct w s = Out (Raised e) s1 c1 ->
     main w s = ScriptRun [] (Out (Raised e) s1 c1)) /\
  (forall names s1 c1 e2 s2 c2 e3 s3 c3,
     main_direct w s = Out (Ok names) s1 c1 ->
     k8s_raises w (Some "minio-secret") (Some "default") s1 e2 s2 c2 ->
     is_Exception e2 = true ->
     keyvault_raises w (Some "my-keyvault") s2 e3 s3 c3 ->
     is_Exception e3 = true ->
     main w s = ScriptRun [names] (Out (Raised config_error) s3 (c1 ++ c2 ++ c3))).
Proof.
  assert (Hcount :
    match res (run (main w s)) with
    | Ok _ => length (printed (main w s)) = 4
    | Raised _ => length (printed (main w s)) < 4
    end).
  { unfold main. do 4 apply then_print_printed. done. }
  split; [|split; [|split]].
  - destruct (res (run (main w s))); lia.
  - destruct (res (run (main w s))) as [[]|x]; split; try done; lia.
  - intros e s1 c1 H1. unfold main, then_print. simpl. by rewrite H1.
  - intros names s1 c1 e2 s2 c2 e3 s3 c3 H1 Hr2 He2 Hr3 He3.
    assert (H2 : main_fallback w s1 = Out (Raised config_error) s3 (c2 ++ c3)).
    { unfold main_fallback, bind.
      by rewrite (init_on_failed_lookups (Some "minio-secret") (Some "default")
                    (Some "my-keyvault") true true s1 e2 s2 c2 e3 s3 c3). }
    unfold main, then_print. simpl. rewrite H1. simpl. by rewrite H2.
Qed.

End MoreFacts.

(** * The further properties on the in-memory doubles *)

(** X2 on the cluster scenario: the wrapper holds the record of the
    cluster, complete, with the flags as passed. *)
Lemma init_returns_complete_client_on_cluster :
  let self := {| client := client_of (PStr "minio.local", PStr "AK", PStr "SK") true false |} in
  let o := __init__ (Double.world Double.fixture) None None None
             (Some "minio-secret") (Some "default") None true false
             Double.empty_server in
  complete (triple_of (client self)) = true /\
  m_secure (client self) = true /\
  m_cert_check (client self) = false /\
  exists lookups,
    calls o = lookups ++ [CallMinio (PStr "minio.local") (PStr "AK") (PStr "SK") true false] /\
    consulted is_minio_constructor lookups = false.
Proof.
  intros self o.
  apply (init_returns_complete_client (Double.world Double.fixture) None None None
           (Some "minio-secret") (Some "default") None true false
           Double.empty_server self).
  vm_compute; reflexivity.
Defined.

(** X3 on an endpoint the storage client refuses: the run made its
    constructor call with the explicit triple, and what it raises is what
    that call raised. *)
Lemma init_failure_on_refused_endpoint :
  let w := Double.world Double.fixture in
  let e := Exc ValueError "path in endpoint is not allowed" in
  let t := (PStr "http://play.min.io/path", PStr "AK", PStr "SK") in
  let o := __init__ w (Some "http://play.min.io/path") (Some "AK") (Some "SK")
             None None None true true Double.empty_server in
  built_with w t true true Double.empty_server [] o /\
  (minio_init w (client_of t true true) Double.empty_server).1 = Raised e /\
  res o = Raised e.
Proof.
  intros w e t o.
  assert (Hres : res o = Raised e) by (vm_compute; reflexivity).
  destruct (init_failure_modes w (Some "http://play.min.io/path") (Some "AK") (Some "SK")
              None None None true true Double.empty_server e Hres)
    as [(Hconfig & _)|[Hbuilt|(Hpass & _)]].
  - discriminate Hconfig.
  - destruct Hbuilt as (t1 & s1 & c1 & t2 & s2 & c2 & Hk & Hv & _ & Hb & _ & Hinit).
    vm_compute in Hk. injection Hk as <- <- <-.
    vm_compute in Hv. injection Hv as <- <- <-.
    split; [exact Hb|]. split; [exact Hinit|exact Hres].
  - discriminate Hpass.
Defined.

(** X4 on a secret that has no [minio] entry. *)
Lemma cluster_lookup_on_unlabelled_secret :
  _get_k8s_secret (Double.world Malformed.unlabelled) (Some "minio-secret")
    (Some "default") Double.empty_server
  = Out (Ok none3) Double.empty_server
      (k8s_sequence (Some "minio-secret") (Some "default")).
Proof.
  apply (cluster_lookup_on_malformed_secret (Double.world Malformed.unlabelled)
           (Some "minio-secret") (Some "default")
           Double.empty_server Double.empty_server Double.empty_server
           Double.empty_server
           {| data := Some {[ "password" := "c2VjcmV0" ]} |});
    [vm_compute; reflexivity ..|].
  right; left. exists {[ "password" := "c2VjcmV0" ]}. split; vm_compute; reflexivity.
Defined.

(** X5 on a vault secret whose value is a number. *)
Lemma keyvault_lookup_on_number :
  _get_azure_keyvault_secret (Double.world Malformed.not_records) (Some "my-keyvault")
    Double.empty_server
  = Out (Ok none3) Double.empty_server (keyvault_sequence (Some "my-keyvault")).
Proof.
  apply (keyvault_lookup_on_malformed_secret (Double.world Malformed.not_records)
           (Some "my-keyvault")
           Double.empty_server Double.empty_server Double.empty_server
           Double.empty_server {| value := Some "42" |});
    [vm_compute; reflexivity ..|].
  right. exists "42", (PInt 42). repeat split; vm_compute; reflexivity.
Defined.

(** The in-memory server keeps its buckets. *)
Lemma double_keeps_buckets fx (c : Minio) (bucket : string) :
  keeps_buckets (Double.world fx) c bucket.
Proof.
  split.
  - intros s1 s2 Hmade. exists s2. exact (double_created_then_exists fx c bucket s1 s2 Hmade).
  - intros s1 s2. simpl. unfold Double.answer.
    destruct (Double.outage s1) eqn:Hup; [done|].
    intros [= Hb <-]. exists s1. by rewrite Hup, Hb.
Qed.

(** X6 on a bucket the server does not hold yet. *)
Lemma create_bucket_establishes_new_bucket :
  exists s',
    bucket_exists (Double.world Double.fixture) Double.self "k8s-bucket"
      (world (create_bucket (Double.world Double.fixture) Double.self "k8s-bucket"
                Double.server))
    = Out (Ok true) s' [CallBucketExists "k8s-bucket"].
Proof.
  apply (create_bucket_establishes_bucket (Double.world Double.fixture) Double.self
           "k8s-bucket" Double.server).
  - apply double_keeps_buckets.
  - vm_compute; reflexivity.
Defined.

(** X7 on five calls for a bucket the server does not hold yet. *)
Lemma create_bucket_five_times_on_new_bucket :
  creation_calls "azure-bucket"
    (calls (create_bucket_times (Double.world Double.fixture) Double.self
              "azure-bucket" 5 Double.server)) = 1.
Proof.
  destruct (create_bucket_times_creates_at_most_once (Double.world Double.fixture)
              Double.self "azure-bucket" 5 Double.server) as (_ & Hmissing).
  - apply double_keeps_buckets.
  - apply (Hmissing Double.server); [lia|reflexivity].
Defined.

(** X9 on a laptop: no cluster identity and nothing in the vault.  The
    script prints the listing of the first bucket and ends with the
    configuration error. *)
Lemma script_on_laptop :
  let w := Double.world Malformed.laptop in
  printed (main w Double.empty_server) = [["example.txt"]] /\
  res (run (main w Double.empty_server)) = Raised config_error.
Proof.
  intros w.
  destruct (script_stops_at_first_exception w Double.empty_server)
    as (_ & _ & _ & Hsecond).
  set (s1 := world (main_direct w Double.empty_server)).
  rewrite (Hsecond ["example.txt"] s1 (calls (main_direct w Double.empty_server))
             (Exc ConfigException "Service host/port is not set.") s1
             [CallLoadInclusterConfig]
             (Exc ResourceNotFoundError "SecretNotFound") s1
             (keyvault_sequence (Some "my-keyvault"))).
  - done.
  - vm_compute; reflexivity.
  - by apply k8s_auth_raises.
  - reflexivity.
  - by apply (keyvault_fetch_raises w (Some "my-keyvault") s1 _ s1 s1 s1).
  - reflexivity.
Defined.
